(** * libcpp-util: sorted_vector, semaphore and raw_array

    A shallow embedding of [ADT/sorted_vector.h], [smp/semaphore.h] and
    [util/raw_array.h], with the properties of their operations.

    Conventions.
    - A [std::vector<Key>] is a [list Key]; an iterator into it is the
      index ([nat]) of the element it points to, [begin()] is [0] and
      [end()] is the length of the vector.
    - A comparator object is a function [Key → Key → bool].
    - The algorithms of the C++ standard library the code calls are in
      [Module Std]; [std::sort], whose result on equivalent elements is
      left open by the standard, is taken through its contract
      ([Class StdSort]). *)

From Stdlib Require Import ZArith.
From stdpp Require Import list sorting.

(** ** Strict weak orders *)

(** What the standard algorithms require of a comparator: irreflexive,
    transitive, and with a transitive incomparability relation. *)
Class StrictWeakOrder {Key : Type} (comp : Key → Key → bool) : Prop := {
  swo_irrefl : ∀ x, comp x x = false;
  swo_trans : ∀ x y z, comp x y = true → comp y z = true → comp x z = true;
  swo_incomparable_trans : ∀ x y z,
    comp x y = false → comp y x = false →
    comp y z = false → comp z y = false →
    comp x z = false ∧ comp z x = false
}.

(** ** The standard algorithms used by the container *)

Module Std.
Section Algorithms.
Context {T : Type}.

(** The search loop of [std::lower_bound] and [std::upper_bound]:
    [first] and [len] delimit the range still to be searched, [p] tells
    whether the answer lies to the right of an element.

      while (len > 0) {
        half = len >> 1; middle = first + half;
        if (p(middle[0])) { first = middle + 1; len = len - half - 1; }
        else len = half;
      }
      return first;

    [fuel] bounds the number of iterations; the length of the range is
    always enough (lemmas [search_loop_fuel] and
    [search_loop_partition_point]). *)
Fixpoint search_loop (p : T → bool) (l : list T) (fuel first len : nat) : nat :=
  match fuel with
  | 0 => first
  | S fuel' =>
      if len =? 0 then first
      else
        let half := Nat.div2 len in
        let middle := first + half in
        match l !! middle with
        | Some x =>
            if p x then search_loop p l fuel' (middle + 1) (len - half - 1)
            else search_loop p l fuel' first half
        | None => first
        end
  end.

(** What the search computes on a partitioned range
    ([std::partition_point]): the number of leading elements that
    satisfy [p]. *)
Fixpoint partition_point (p : T → bool) (l : list T) : nat :=
  match l with
  | [] => 0
  | x :: t => if p x then S (partition_point p t) else 0
  end.

(** The precondition of the search: [p] holds on a prefix of the list
    and nowhere else. *)
Definition partitioned (p : T → bool) (l : list T) : Prop :=
  ∀ i j x y, i ≤ j → l !! i = Some x → l !! j = Some y →
    p y = true → p x = true.

(** [std::lower_bound(begin, end, val, comp)]: goes right while
    [comp(middle[0], val)]. *)
Definition lower_bound (comp : T → T → bool) (l : list T) (val : T) : nat :=
  search_loop (λ x, comp x val) l (length l) 0 (length l).

(** [std::upper_bound(begin, end, val, comp)]: goes right while
    [!comp(val, middle[0])]. *)
Definition upper_bound (comp : T → T → bool) (l : list T) (val : T) : nat :=
  search_loop (λ x, negb (comp val x)) l (length l) 0 (length l).

(** [std::equal_range]: the pair of both bounds, as the standard
    defines its result. *)
Definition equal_range (comp : T → T → bool) (l : list T) (val : T) : nat * nat :=
  (lower_bound comp l val, upper_bound comp l val).

(** [std::is_sorted(begin, end, comp)]: no element orders before its
    predecessor. *)
Fixpoint is_sorted (comp : T → T → bool) (l : list T) : bool :=
  match l with
  | [] => true
  | x :: t =>
      match t with
      | [] => true
      | y :: _ => negb (comp y x) && is_sorted comp t
      end
  end.

(** [std::adjacent_find(begin, end, pred)]: the position of the first
    element that satisfies [pred] with its successor, the end position
    when there is none. *)
Fixpoint adjacent_find (pred : T → T → bool) (l : list T) : nat :=
  match l with
  | [] => 0
  | x :: t =>
      match t with
      | [] => 1
      | y :: _ => if pred x y then 0 else S (adjacent_find pred t)
      end
  end.

(** [std::unique(begin, end, pred)] followed by the erasure of the tail:
    an element is dropped when [pred] holds between the last element
    kept and it. *)
Fixpoint unique_from (pred : T → T → bool) (kept : T) (l : list T) : list T :=
  match l with
  | [] => []
  | y :: t =>
      if pred kept y then unique_from pred kept t
      else y :: unique_from pred y t
  end.

Definition unique (pred : T → T → bool) (l : list T) : list T :=
  match l with
  | [] => []
  | x :: t => x :: unique_from pred x t
  end.

(** [vector::insert(pos, value)]: the elements from [pos] on move one
    place to the right. *)
Definition vector_insert (pos : nat) (value : T) (l : list T) : list T :=
  take pos l ++ value :: drop pos l.

(** [vector::erase(pos)]: the elements after [pos] move one place to
    the left. The source requires [pos] to point to an element; outside
    the vector nothing is removed here. *)
Definition vector_erase (pos : nat) (l : list T) : list T := delete pos l.

(** [vector::erase(first, last)]. *)
Definition vector_erase_range (first last : nat) (l : list T) : list T :=
  take first l ++ drop last l.

End Algorithms.
End Std.

(** [std::sort]: the standard fixes the result only up to the order of
    equivalent elements, so the container is defined over any function
    that meets the contract: the output is a permutation of the input
    and is sorted under the comparator. *)
Class StdSort (Key : Type) := {
  std_sort : (Key → Key → bool) → list Key → list Key;
  std_sort_perm : ∀ comp l,
    StrictWeakOrder comp → std_sort comp l ≡ₚ l;
  std_sort_sorted : ∀ comp l,
    StrictWeakOrder comp → Std.is_sorted comp (std_sort comp l) = true
}.


(** A sort that meets the contract, to run the container on concrete
    inputs: the merge sort of stdpp on "does not order after". *)
Definition reference_sort {Key : Type} (comp : Key → Key → bool)
  (l : list Key) : list Key :=
  @merge_sort Key (λ a b, comp b a = false)
    (λ a b, decide (comp b a = false)) l.

(** ** The container *)

Module SortedVector.

(** [sorted_vector<Key, Compare>]: the backing vector and the comparator
    object, the two data members of the class (the allocator carries no
    behaviour of its own). *)
Record sorted_vector (Key : Type) := SV {
  storage : list Key;
  comp : Key → Key → bool
}.
Arguments SV {Key} _ _.
Arguments storage {Key} _.
Arguments comp {Key} _ _ _.

(** Result of a member function that returns [std::pair<iterator, bool>]
    and updates the container. *)
Definition insert_result (Key : Type) : Type := sorted_vector Key * (nat * bool).

(** How a call of a member function ends. [Returned a]: it returns
    [a]. [FlowsOffEnd sv]: its statements leave the container as [sv],
    and control then reaches the end of the function, whose return type
    is not [void], without meeting a return statement; the behaviour of
    such a call is undefined, so that a caller can rely neither on a
    returned value nor on the container. *)
Inductive completion (Key A : Type) : Type :=
  | Returned (a : A)
  | FlowsOffEnd (reached : sorted_vector Key).
Arguments Returned {Key A} _.
Arguments FlowsOffEnd {Key A} _.

(** The iterator a member function hands back after it has run.
    [Fresh pos]: a valid iterator to position [pos]. [Stale pos]: the
    iterator was taken at [pos] before an insertion at that position,
    which invalidates it (it dangles when the vector has reallocated). *)
Inductive returned_iterator : Type :=
  | Fresh (pos : nat)
  | Stale (pos : nat).

(** The iterators that delimit an input range. [MultiPass]: forward
    iterators or better (containers, arrays, initializer lists), a copy
    of which can be walked without effect on the original.
    [SinglePass]: [std::istream_iterator], where walking a copy consumes
    the input. *)
Inductive range_category : Type :=
  | SinglePass
  | MultiPass.

Section Members.
Context {Key : Type}.
Implicit Types (sv : sorted_vector Key) (k key value : Key).

(** Writes the backing vector, the comparator stays. *)
Definition with_storage sv (l : list Key) : sorted_vector Key :=
  SV l (comp sv).

Definition begin_ sv : nat := 0.
Definition end_ sv : nat := length (storage sv).
Definition empty sv : bool := bool_decide (storage sv = []).
Definition size sv : nat := length (storage sv).

(** A test on the element an iterator points to. Only positions before
    [end()] may be dereferenced in the source; every use below is
    guarded accordingly, and the test is [false] elsewhere. *)
Definition deref sv (I : nat) (test : Key → bool) : bool :=
  from_option test false (storage sv !! I).

(** lines 57-60 *)
Definition equivalent sv k1 k2 : bool :=
  negb (comp sv k1 k2) && negb (comp sv k2 k1).

Definition greater sv k1 k2 : bool := comp sv k2 k1.

(** lines 63-69; [std::prev(hint)] is [hint - 1]. *)
Definition good_hint sv (hint : nat) k : bool :=
  if negb (hint =? begin_ sv) && negb (deref sv (hint - 1) (λ p, greater sv k p))
  then false
  else if negb (hint =? end_ sv) && negb (deref sv hint (λ h, comp sv k h))
  then false
  else true.

(** lines 70-75, always called on the whole vector
    ([sort_unique(begin(), end())]). *)
Definition sort_unique `{!StdSort Key} sv : sorted_vector Key :=
  with_storage sv
    (Std.unique (equivalent sv) (std_sort (comp sv) (storage sv))).

(** *** Constructors and assignment *)

(** lines 79-81 *)
Definition new (c : Key → Key → bool) : sorted_vector Key := SV [] c.

(** lines 82-87 *)
Definition from_range `{!StdSort Key} (l : list Key) (c : Key → Key → bool)
  : sorted_vector Key :=
  sort_unique (SV l c).

(** lines 99-104 *)
Definition from_ilist `{!StdSort Key} (ilist : list Key) (c : Key → Key → bool)
  : sorted_vector Key :=
  sort_unique (SV ilist c).

(** line 106: the defaulted copy assignment copies both members. *)
Definition assign sv (other : sorted_vector Key) : sorted_vector Key := other.

(** lines 108-111: the two statements assign and normalize, and the
    function, declared to return [sorted_vector &], ends without a
    return statement. *)
Definition assign_ilist `{!StdSort Key} sv (ilist : list Key)
  : completion Key (sorted_vector Key) :=
  FlowsOffEnd (sort_unique (with_storage sv ilist)).

(** *** Lookup *)

(** lines 251-267 *)
Definition upper_bound sv key : nat := Std.upper_bound (comp sv) (storage sv) key.
Definition lower_bound sv key : nat := Std.lower_bound (comp sv) (storage sv) key.
Definition equal_range sv key : nat * nat :=
  Std.equal_range (comp sv) (storage sv) key.

(** lines 236-239; [std::distance(first, second)] is [second - first]. *)
Definition count sv key : nat :=
  let result := equal_range sv key in
  result.2 - result.1.

(** lines 241-246:

      auto I = lower_bound(key);
      if (I == end() || comp(key, I[0])) return I;
      return end();
*)
Definition find sv key : nat :=
  let I := lower_bound sv key in
  if (I =? end_ sv) || deref sv I (λ x, comp sv key x) then I
  else end_ sv.

(** lines 274-280 *)
Definition validate sv : bool :=
  let sorted := Std.is_sorted (comp sv) (storage sv) in
  let unique := Std.adjacent_find (equivalent sv) (storage sv) =? end_ sv in
  sorted && unique.

(** *** Modifiers *)

(** line 145 *)
Definition clear sv : sorted_vector Key := with_storage sv [].

(** line 147; returns the position after the erased element. *)
Definition erase_pos sv (pos : nat) : sorted_vector Key * nat :=
  (with_storage sv (Std.vector_erase pos (storage sv)), pos).

(** lines 149-151 *)
Definition erase_range sv (first last : nat) : sorted_vector Key * nat :=
  (with_storage sv (Std.vector_erase_range first last (storage sv)), first).

(** lines 153-161 *)
Definition erase sv key : sorted_vector Key * nat :=
  let I := find sv key in
  if negb (I =? end_ sv)
  then (with_storage sv (Std.vector_erase I (storage sv)), 1)
  else (sv, 0).

(** line 163: only the backing vectors are exchanged. *)
Definition swap sv (other : sorted_vector Key)
  : sorted_vector Key * sorted_vector Key :=
  (with_storage sv (storage other), with_storage other (storage sv)).

(** lines 166-180 (both overloads do the same to the contents). *)
Definition insert sv value : insert_result Key :=
  let I := lower_bound sv value in
  if negb (I =? end_ sv) && deref sv I (λ x, equivalent sv x value)
  then (sv, (I, false))
  else (with_storage sv (Std.vector_insert I value (storage sv)), (I, true)).

(** lines 182-193 (both overloads): the if statement inserts at the
    hint or calls [insert], both results are discarded, and the
    function, declared to return [iterator], ends without a return
    statement. *)
Definition insert_hint sv (hint : nat) value
  : completion Key (sorted_vector Key * nat) :=
  FlowsOffEnd
    (if good_hint sv hint value
     then with_storage sv (Std.vector_insert hint value (storage sv))
     else (insert sv value).1).

(** lines 204-205: the loop [while (first != last) insert(first++[0])]
    over the elements [l] of the range. *)
Definition insert_all sv (l : list Key) : sorted_vector Key :=
  foldl (λ acc x, (insert acc x).1) sv l.

(** line 203: [std::distance(first, last)] walks a copy of [first] up
    to [last] before the loop runs. What the loop still finds in the
    range [l] afterwards: all of it when the iterators are multi-pass;
    when they are single-pass the walk has consumed the input, and the
    loop finds only the value [first] had read before, the first of the
    range. *)
Definition after_distance (category : range_category) (l : list Key)
  : list Key :=
  match category with
  | MultiPass => l
  | SinglePass => take 1 l
  end.

(** lines 195-206: the range [first .. last) holds the values [l]. On
    an empty container the whole range goes into the vector
    ([vector::insert] reads a range of either category once). *)
Definition insert_range `{!StdSort Key} sv (category : range_category)
  (l : list Key) : sorted_vector Key :=
  if empty sv
  then sort_unique (with_storage sv (l ++ storage sv))
  else insert_all sv (after_distance category l).

(** lines 208-210: the iterators of an initializer list are pointers. *)
Definition insert_ilist `{!StdSort Key} sv (ilist : list Key)
  : sorted_vector Key :=
  insert_range sv MultiPass ilist.

(** lines 212-226. The arguments are forwarded twice: [tmp] is the
    value constructed from them first (line 215), [again] the element
    constructed from them in place afterwards (lines 218 and 223). The
    two differ when the first construction has moved from the arguments.
    After an insertion the function returns [I], the iterator it took
    before inserting. *)
Definition emplace sv (tmp again : Key)
  : sorted_vector Key * (returned_iterator * bool) :=
  let I := lower_bound sv tmp in
  if I =? end_ sv
  then (with_storage sv (Std.vector_insert I again (storage sv)),
        (Stale I, true))
  else if deref sv I (λ x, equivalent sv x tmp)
  then (sv, (Fresh I, false))
  else (with_storage sv (Std.vector_insert I again (storage sv)),
        (Stale I, true)).

(** lines 228-233: the hint is not used. *)
Definition emplace_hint sv (hint : nat) (tmp again : Key)
  : sorted_vector Key * returned_iterator :=
  let r := emplace sv tmp again in (r.1, r.2.1).

(** *** The invariants of the data model *)

(** I1: for all positions [i < j], the element at [j] does not order
    before the element at [i]. *)
Definition I1 sv : Prop :=
  ∀ i j x y, i < j → storage sv !! i = Some x → storage sv !! j = Some y →
    comp sv y x = false.

(** I2: the elements at two different positions are not equivalent. *)
Definition I2 sv : Prop :=
  ∀ i j x y, i ≠ j → storage sv !! i = Some x → storage sv !! j = Some y →
    equivalent sv x y = false.

(** Both invariants at once: every element orders strictly before all
    the later ones. *)
Definition strictly_sorted (c : Key → Key → bool) (l : list Key) : Prop :=
  StronglySorted (λ a b, c a b = true) l.

(** The container holds an element equivalent to [k]. *)
Definition holds sv k : Prop :=
  ∃ x, x ∈ storage sv ∧ equivalent sv x k = true.

(** Two containers hold the same keys: their contents agree position by
    position up to the equivalence of the comparator. *)
Definition same_keys sv (other : sorted_vector Key) : Prop :=
  Forall2 (λ a b, equivalent sv a b = true) (storage sv) (storage other).

(** What a creation path makes of the arbitrary input [l] under the
    comparator [c]: the input sorted, then with each run of equivalent
    values collapsed; the result satisfies the invariants, holds a
    representative of every input value and nothing but input values. *)
Definition normalized `{!StdSort Key} (c : Key → Key → bool) (l : list Key)
  sv : Prop :=
  comp sv = c ∧
  storage sv = Std.unique (equivalent sv) (std_sort c l) ∧
  I1 sv ∧ I2 sv ∧
  (∀ x, x ∈ l → holds sv x) ∧
  (∀ x, x ∈ storage sv → x ∈ l).

(** *** Sequences of calls on one container *)

(** The calls that modify a container and return. The hinted insert
    and the list assignment are not among them: no call of those
    returns. *)
Inductive call : Type :=
  | Insert (value : Key)
  | InsertRange (category : range_category) (l : list Key)
  | InsertIlist (ilist : list Key)
  | Emplace (tmp again : Key)
  | EmplaceHint (hint : nat) (tmp again : Key)
  | ErasePos (pos : nat)
  | EraseRange (first last : nat)
  | EraseKey (key : Key)
  | Clear.

Definition run_call `{!StdSort Key} sv (c : call) : sorted_vector Key :=
  match c with
  | Insert value => (insert sv value).1
  | InsertRange category l => insert_range sv category l
  | InsertIlist ilist => insert_ilist sv ilist
  | Emplace tmp again => (emplace sv tmp again).1
  | EmplaceHint hint tmp again => (emplace_hint sv hint tmp again).1
  | ErasePos pos => (erase_pos sv pos).1
  | EraseRange first last => (erase_range sv first last).1
  | EraseKey key => (erase sv key).1
  | Clear => clear sv
  end.

(** What a call needs for the container to stay well formed: a position
    that points to an element, a range within the container, a hint
    between [begin()] and [end()], and for the emplacing calls arguments
    whose second construction is equivalent to the first. *)
Definition call_ok sv (c : call) : Prop :=
  match c with
  | Emplace tmp again => equivalent sv again tmp = true
  | EmplaceHint hint tmp again =>
      hint ≤ end_ sv ∧ equivalent sv again tmp = true
  | ErasePos pos => pos < end_ sv
  | EraseRange first last => first ≤ last ≤ end_ sv
  | _ => True
  end.

Fixpoint calls_ok `{!StdSort Key} sv (cs : list call) : Prop :=
  match cs with
  | [] => True
  | c :: cs' => call_ok sv c ∧ calls_ok (run_call sv c) cs'
  end.

End Members.
End SortedVector.

(** ** The semaphore *)

Module Semaphore.

(** [unsigned] arithmetic: 32 bits, wrapping around. *)
Definition wrap (z : Z) : Z := (z mod 2 ^ 32)%Z.

(** The data the spinlock [s] protects. Every member function holds the
    lock for its whole body, so a call is one step on this state. *)
Record semaphore := Sem {
  count : Z;
  waiters : Z
}.

Definition in_range (s : semaphore) : Prop :=
  (0 ≤ count s < 2 ^ 32)%Z ∧ (0 ≤ waiters s < 2 ^ 32)%Z.

(** What a call does to its thread: it returns a value, or it suspends
    the thread on the condition variable. *)
Inductive outcome (A : Type) : Type :=
  | Returns (a : A)
  | Suspends.
Arguments Returns {A} _.
Arguments Suspends {A}.

(** lines 27-29 *)
Definition new (initial_count : Z) : semaphore := Sem initial_count 0.

(** lines 33-41 *)
Definition post (s : semaphore) : semaphore * outcome unit :=
  let count' := wrap (count s + 1) in
  if (waiters s >? 0)%Z
  then (Sem count' (wrap (waiters s - 1)), Returns ())
  else (Sem count' (waiters s), Returns ()).

(** lines 43-48 *)
Definition post_all (s : semaphore) : semaphore * outcome unit :=
  (Sem (wrap (count s + waiters s)) 0, Returns ()).

(** lines 50-60, up to the first [cv.wait]. *)
Definition wait (s : semaphore) : semaphore * outcome unit :=
  if (count s >? 0)%Z
  then (Sem (wrap (count s - 1)) (waiters s), Returns ())
  else (Sem (count s) (wrap (waiters s + 1)), Suspends).

(** lines 56-58, for a waiter that [cv.wait] has woken up: it goes back
    to waiting while the count is zero and takes one off it otherwise. *)
Definition resume (s : semaphore) : semaphore * outcome unit :=
  if (count s =? 0)%Z
  then (s, Suspends)
  else (Sem (wrap (count s - 1)) (waiters s), Returns ()).

(** lines 62-70 *)
Definition try_wait (s : semaphore) : semaphore * outcome bool :=
  if (count s >? 0)%Z
  then (Sem (wrap (count s - 1)) (waiters s), Returns true)
  else (s, Returns false).

(** lines 72-75 *)
Definition value (s : semaphore) : Z := count s.

End Semaphore.

(** ** The raw array *)

Module RawArray.

(** [raw_array<T, N>]: [N] cells, each holding the representation of a
    [T]. The cells start out with arbitrary contents. *)
Record raw_array (T : Type) (N : nat) := Raw {
  data : list T;
  data_length : length data = N
}.
Arguments Raw {T N} _ _.
Arguments data {T N} _.
Arguments data_length {T N} _.

(** A [T&] into an object of type [S]: what a read through it yields
    and what a write through it does. *)
Record reference (T S : Type) := Ref {
  load : S → option T;
  store : T → S → S
}.
Arguments Ref {T S} _ _.
Arguments load {T S} _ _.
Arguments store {T S} _ _ _.

Section Members.
Context {T : Type} {N : nat}.

(** lines 21-23 *)
Definition capacity (a : raw_array T N) : nat := N.

(** lines 25-27: the const overload yields the cell's value. There is no
    bounds check: outside the array the source reads foreign memory,
    which is [None] here. *)
Definition subscript_const (a : raw_array T N) (index : nat) : option T :=
  data a !! index.

Definition write_cell (index : nat) (v : T) (a : raw_array T N) : raw_array T N :=
  Raw (<[index := v]> (data a))
      (eq_trans (length_insert (data a) index v) (data_length a)).

(** lines 29-31: the reference to cell [index]. A write outside the
    array, which the source does not prevent, leaves the cells as they
    are. *)
Definition subscript (index : nat) : reference T (raw_array T N) :=
  Ref (λ a, data a !! index) (write_cell index).

End Members.
End RawArray.

(** ** Concrete containers *)

Module Samples.
Import SortedVector RawArray.

(** [sorted_vector<int>] under [std::less<int>]. *)
Definition one_two_three : sorted_vector Z := SV [1; 2; 3]%Z Z.ltb.
Definition one_three_five : sorted_vector Z := SV [1; 3; 5]%Z Z.ltb.

(** Two containers of one type [sorted_vector<int, Cmp>] whose
    comparator objects differ, as with a [Cmp] that carries a direction
    or with [std::function<bool(int, int)>]. *)
Definition ascending : sorted_vector Z := SV [1; 2]%Z Z.ltb.
Definition descending : sorted_vector Z := SV [] Z.gtb.

(** [raw_array<int, 3>] *)
Definition three_cells : raw_array Z 3 := Raw [10; 20; 30]%Z eq_refl.

(** A sequence of calls on [one_three_five]. *)
Definition sample_calls : list (@call Z) :=
  [Insert 4%Z; EraseKey 2%Z; ErasePos 1;
   InsertRange MultiPass [7; 7; 2]%Z; InsertRange SinglePass [9; 0]%Z;
   Emplace 6%Z 6%Z; EmplaceHint 0 8%Z 8%Z; EraseRange 1 3;
   InsertIlist [3; 3; 1]%Z; Clear; InsertRange SinglePass [2; 1; 2]%Z].

(** Pairs ordered by their first component alone. *)
Definition by_first (a b : Z * Z) : bool := (a.1 <? b.1)%Z.

End Samples.

(** * Properties *)

(** ** Strict weak orders *)

Section StrictWeakOrderFacts.
Context {Key : Type} (c : Key → Key → bool) `{!StrictWeakOrder c}.

Lemma swo_asym x y : c x y = true → c y x = false.
Proof.
  intros Hxy. destruct (c y x) eqn:Hyx; [|done].
  pose proof (swo_trans x y x Hxy Hyx) as Hxx.
  by rewrite swo_irrefl in Hxx.
Qed.

(** If [x] orders before [y], every [z] is after [x] or before [y]. *)
Lemma swo_between x y z : c x y = true → c x z = true ∨ c z y = true.
Proof.
  intros Hxy.
  destruct (c x z) eqn:Hxz; [by left|].
  destruct (c z y) eqn:Hzy; [by right|]. exfalso.
  destruct (c z x) eqn:Hzx.
  { by rewrite (swo_trans z x y) in Hzy. }
  destruct (c y z) eqn:Hyz.
  { by rewrite (swo_trans x y z) in Hxz. }
  destruct (swo_incomparable_trans x z y) as [Hxy' _]; try done.
  congruence.
Qed.

Global Instance swo_strict_transitive : Transitive (λ a b, c a b = true).
Proof. intros x y z. apply swo_trans. Qed.

Global Instance swo_not_after_transitive : Transitive (λ a b, c b a = false).
Proof.
  intros x y z Hyx Hzy. destruct (c z x) eqn:Hzx; [|done].
  destruct (swo_between z x y Hzx); congruence.
Qed.

Global Instance swo_not_after_total : Total (λ a b, c b a = false).
Proof.
  intros x y. destruct (c y x) eqn:Hyx; [|by left].
  right. by apply swo_asym.
Qed.

End StrictWeakOrderFacts.

(** ** The standard algorithms *)

Module StdFacts.
Import Std.

Section Search.
Context {T : Type} (p : T → bool).
Implicit Types l : list T.

Local Abbreviation partition_point := (Std.partition_point p).
Local Abbreviation partitioned := (Std.partitioned p).

Lemma partition_point_le l : partition_point l ≤ length l.
Proof. induction l as [|x t IH]; simpl; [lia|]. destruct (p x); simpl; lia. Qed.

Lemma partition_point_before l i :
  i < partition_point l → ∃ x, l !! i = Some x ∧ p x = true.
Proof.
  revert i. induction l as [|x t IH]; intros i; simpl; [lia|].
  destruct (p x) eqn:Hx; [|lia].
  destruct i as [|i]; simpl; [eauto|].
  intros ?. apply IH. lia.
Qed.

Lemma partition_point_at l :
  partition_point l < length l →
  ∃ x, l !! partition_point l = Some x ∧ p x = false.
Proof.
  induction l as [|x t IH]; simpl; [lia|].
  destruct (p x) eqn:Hx; simpl; [|eauto].
  intros ?. apply IH. lia.
Qed.

Lemma partition_point_after l i x :
  partitioned l → partition_point l ≤ i → l !! i = Some x → p x = false.
Proof.
  intros Hpart Hle Hi.
  destruct (partition_point_at l) as (y & Hy & Hpy).
  { apply lookup_lt_Some in Hi. lia. }
  destruct (p x) eqn:Hx; [|done].
  rewrite (Hpart _ _ _ _ Hle Hy Hi Hx) in Hpy. done.
Qed.

Lemma partitioned_cons x l : partitioned (x :: l) → partitioned l.
Proof.
  intros Hpart i j a b Hij Hi Hj. apply (Hpart (S i) (S j)); [lia|done..].
Qed.

(** A position that splits the list into a part where [p] holds and a
    part where it fails is the partition point. *)
Lemma partition_point_split l n :
  n ≤ length l →
  (∀ x, x ∈ take n l → p x = true) →
  (∀ x, x ∈ drop n l → p x = false) →
  partition_point l = n.
Proof.
  revert n. induction l as [|x t IH]; intros n Hn Htake Hdrop; simpl in *.
  { lia. }
  destruct n as [|n]; simpl in *.
  - rewrite Hdrop; [done|]. left.
  - rewrite Htake by left. f_equal. apply IH; [lia| |done].
    intros y Hy. apply Htake. by right.
Qed.

(** The binary search finds the partition point, and [length l] rounds
    are enough for it. *)
Lemma search_loop_partition_point l fuel first len :
  partitioned l →
  len ≤ fuel →
  first ≤ partition_point l ≤ first + len →
  first + len ≤ length l →
  search_loop p l fuel first len = partition_point l.
Proof.
  intros Hpart. revert first len.
  induction fuel as [|fuel IH]; intros first len Hfuel Hpp Hlen; simpl.
  { lia. }
  destruct (Nat.eqb_spec len 0) as [->|Hne]; [lia|].
  assert (Nat.div2 len < len) as Hhalf by (apply Nat.lt_div2; lia).
  generalize dependent (Nat.div2 len). intros half Hhalf.
  destruct (lookup_lt_is_Some_2 l (first + half)) as [x Hx]; [lia|].
  rewrite Hx. destruct (p x) eqn:Hpx.
  - apply IH; [lia| |lia].
    destruct (decide (partition_point l ≤ first + half)) as [Hle|]; [|lia].
    rewrite (partition_point_after l _ x Hpart Hle Hx) in Hpx. done.
  - apply IH; [lia| |lia].
    destruct (decide (first + half < partition_point l)) as [Hlt|]; [|lia].
    destruct (partition_point_before l _ Hlt) as (y & Hy & Hpy). congruence.
Qed.

(** The loop ends by itself: once the fuel covers the length of the
    range, more fuel does not change the result. *)
Lemma search_loop_fuel l fuel fuel' first len :
  len ≤ fuel → len ≤ fuel' →
  search_loop p l fuel first len = search_loop p l fuel' first len.
Proof.
  revert fuel' first len.
  induction fuel as [|fuel IH]; intros [|fuel'] first len Hf Hf'; simpl;
    try done.
  - by replace len with 0 by lia.
  - by replace len with 0 by lia.
  - destruct (Nat.eqb_spec len 0) as [->|Hne]; [done|].
    assert (Nat.div2 len < len) as Hhalf by (apply Nat.lt_div2; lia).
    generalize dependent (Nat.div2 len). intros half Hhalf.
    destruct (l !! (first + half)) as [x|]; [|done].
    destruct (p x); apply IH; lia.
Qed.

Lemma search_partition_point l :
  partitioned l →
  search_loop p l (length l) 0 (length l) = partition_point l.
Proof.
  intros Hpart. apply search_loop_partition_point; [done|lia| |lia].
  pose proof (partition_point_le l). lia.
Qed.

End Search.

Section Scans.
Context {T : Type}.
Implicit Types (l : list T) (c pred : T → T → bool).

Lemma is_sorted_Sorted c l :
  is_sorted c l = true ↔ Sorted (λ a b, c b a = false) l.
Proof.
  induction l as [|x t IH]; [by split; [constructor|]|].
  destruct t as [|y t].
  { split; [by repeat constructor|done]. }
  change (is_sorted c (x :: y :: t))
    with (negb (c y x) && is_sorted c (y :: t)).
  rewrite andb_true_iff, negb_true_iff, IH. split.
  - intros [? ?]. constructor; [done|by constructor].
  - intros [Hs Hhd]%Sorted_inv. by apply HdRel_inv in Hhd.
Qed.

Lemma adjacent_find_end pred l :
  adjacent_find pred l = length l ↔ Sorted (λ a b, pred a b = false) l.
Proof.
  induction l as [|x t IH]; [by split; [constructor|]|].
  destruct t as [|y t].
  { split; [by repeat constructor|done]. }
  change (adjacent_find pred (x :: y :: t))
    with (if pred x y then 0 else S (adjacent_find pred (y :: t))).
  destruct (pred x y) eqn:Hxy.
  - split; [done|]. intros [_ Hhd]%Sorted_inv.
    apply HdRel_inv in Hhd. congruence.
  - change (length (x :: y :: t)) with (S (length (y :: t))).
    split.
    + intros [= Hf]. apply IH in Hf. constructor; [done|by constructor].
    + intros [Hs _]%Sorted_inv. f_equal. by apply IH.
Qed.

End Scans.
End StdFacts.

(** ** The container: invariants and lookup *)

Module SortedVectorFacts.
Import Std StdFacts SortedVector Samples.

Section Relations.
Context {T : Type}.
Implicit Types (l : list T) (R : relation T).

Lemma Sorted_weaken R R' l :
  (∀ a b, R a b → R' a b) → Sorted R l → Sorted R' l.
Proof.
  intros HR. induction 1 as [|x t Hs IH Hhd]; constructor; [done|].
  destruct Hhd; constructor; auto.
Qed.

Lemma Sorted_both R1 R2 R l :
  (∀ a b, R1 a b → R2 a b → R a b) →
  Sorted R1 l → Sorted R2 l → Sorted R l.
Proof.
  intros HR. induction 1 as [|x t Hs IH Hhd]; intros Hs2; constructor.
  - apply IH. by apply Sorted_inv in Hs2 as [? _].
  - apply Sorted_inv in Hs2 as [_ Hhd2].
    destruct Hhd; constructor. apply HdRel_inv in Hhd2. auto.
Qed.

(** [StronglySorted] read through positions. *)
Lemma StronglySorted_lookup R l :
  StronglySorted R l ↔
  ∀ i j x y, i < j → l !! i = Some x → l !! j = Some y → R x y.
Proof.
  induction l as [|a t IH].
  { split; [|constructor]. by intros _ [|?] ? ? ? ? ?. }
  rewrite StronglySorted_cons, IH, Forall_forall. split.
  - intros [Hhd Htl] i j x y Hij Hi Hj.
    destruct j as [|j]; [lia|]. destruct i as [|i]; simpl in *.
    + simplify_eq. apply Hhd. by eapply list_elem_of_lookup_2.
    + apply (Htl i j); [lia|done..].
  - intros Hl. split.
    + intros y [j Hj]%list_elem_of_lookup_1. apply (Hl 0 (S j)); [lia|done..].
    + intros i j x y Hij Hi Hj. apply (Hl (S i) (S j)); [lia|done..].
Qed.

End Relations.

Section Invariants.
Context {Key : Type}.
Implicit Types (sv : sorted_vector Key) (k v : Key) (l : list Key).

Lemma strictly_sorted_lookup (c : Key → Key → bool) l :
  strictly_sorted c l ↔
  ∀ i j x y, i < j → l !! i = Some x → l !! j = Some y → c x y = true.
Proof. apply StronglySorted_lookup. Qed.

Lemma equivalent_true sv a b :
  equivalent sv a b = true ↔ comp sv a b = false ∧ comp sv b a = false.
Proof.
  unfold equivalent. by rewrite andb_true_iff, !negb_true_iff.
Qed.

Lemma equivalent_false sv a b :
  equivalent sv a b = false ↔ comp sv a b = true ∨ comp sv b a = true.
Proof.
  unfold equivalent. rewrite andb_false_iff, !negb_false_iff. done.
Qed.

Lemma equivalent_refl sv `{!StrictWeakOrder (comp sv)} a :
  equivalent sv a a = true.
Proof. apply equivalent_true. by rewrite swo_irrefl. Qed.

Lemma equivalent_with_storage sv l a b :
  equivalent (with_storage sv l) a b = equivalent sv a b.
Proof. done. Qed.

(** [validate()] decides that the contents are strictly sorted. *)
Lemma validate_strictly_sorted sv `{!StrictWeakOrder (comp sv)} :
  validate sv = true ↔ strictly_sorted (comp sv) (storage sv).
Proof.
  unfold validate, strictly_sorted, end_.
  rewrite andb_true_iff, Nat.eqb_eq, is_sorted_Sorted, adjacent_find_end.
  split.
  - intros [Hs Hu]. apply Sorted_StronglySorted; [apply _|].
    revert Hs Hu. apply Sorted_both. intros a b Hba Hne.
    apply equivalent_false in Hne as [?|?]; [done|congruence].
  - intros Hs%StronglySorted_Sorted. split.
    + revert Hs. apply Sorted_weaken. intros a b. by apply swo_asym.
    + revert Hs. apply Sorted_weaken. intros a b ?.
      apply equivalent_false. by left.
Qed.

(** The two invariants of the data model say the same. *)
Lemma invariants_strictly_sorted sv `{!StrictWeakOrder (comp sv)} :
  I1 sv ∧ I2 sv ↔ strictly_sorted (comp sv) (storage sv).
Proof.
  rewrite strictly_sorted_lookup. split.
  - intros [H1 H2] i j x y Hij Hi Hj.
    assert (i ≠ j) as Hne by lia.
    pose proof (H1 _ _ _ _ Hij Hi Hj) as Hyx.
    apply (H2 _ _ _ _ Hne Hi), equivalent_false in Hj as [?|?];
      [done|congruence].
  - intros Hl. split.
    + intros i j x y Hij Hi Hj. apply (swo_asym (comp sv)). eauto.
    + intros i j x y Hne Hi Hj. apply equivalent_false.
      destruct (decide (i < j));
        [left; apply (Hl i j)|right; apply (Hl j i)]; done || lia.
Qed.

Lemma invariants_validate sv `{!StrictWeakOrder (comp sv)} :
  I1 sv ∧ I2 sv ↔ validate sv = true.
Proof. by rewrite validate_strictly_sorted, invariants_strictly_sorted. Qed.

(** *** The bounds on a container that satisfies the invariants *)

Section Bounds.
Context (c : Key → Key → bool) `{!StrictWeakOrder c}.

Lemma strictly_sorted_partitioned_lower l v :
  strictly_sorted c l → partitioned (λ x, c x v) l.
Proof.
  intros Hl i j x y Hij Hi Hj Hy.
  rewrite strictly_sorted_lookup in Hl.
  destruct (decide (i = j)) as [->|]; [congruence|].
  apply (swo_trans x y v); [|done]. apply (Hl i j); [lia|done..].
Qed.

Lemma strictly_sorted_partitioned_upper l v :
  strictly_sorted c l → partitioned (λ x, negb (c v x)) l.
Proof.
  intros Hl i j x y Hij Hi Hj Hy.
  rewrite strictly_sorted_lookup in Hl.
  destruct (decide (i = j)) as [->|]; [congruence|].
  apply negb_true_iff in Hy. apply negb_true_iff.
  destruct (c v x) eqn:Hvx; [|done].
  rewrite (swo_trans v x y) in Hy; [done..|]. apply (Hl i j); [lia|done..].
Qed.

Lemma lower_bound_partition_point l v :
  strictly_sorted c l →
  Std.lower_bound c l v = partition_point (λ x, c x v) l.
Proof.
  intros Hl. apply search_partition_point.
  by apply strictly_sorted_partitioned_lower.
Qed.

Lemma upper_bound_partition_point l v :
  strictly_sorted c l →
  Std.upper_bound c l v = partition_point (λ x, negb (c v x)) l.
Proof.
  intros Hl. apply search_partition_point.
  by apply strictly_sorted_partitioned_upper.
Qed.

Lemma lower_bound_le l v :
  strictly_sorted c l → Std.lower_bound c l v ≤ length l.
Proof.
  intros Hl. rewrite lower_bound_partition_point by done.
  apply partition_point_le.
Qed.

(** Everything before the lower bound orders before [v]. *)
Lemma lower_bound_before l v x :
  strictly_sorted c l → x ∈ take (Std.lower_bound c l v) l → c x v = true.
Proof.
  intros Hl (i & Hi & Hlt)%elem_of_take.
  rewrite lower_bound_partition_point in Hlt by done.
  apply partition_point_before in Hlt as (y & Hy & Hp). congruence.
Qed.

(** Nothing from the lower bound on orders before [v]. *)
Lemma lower_bound_after l v x :
  strictly_sorted c l → x ∈ drop (Std.lower_bound c l v) l → c x v = false.
Proof.
  intros Hl [i Hi]%list_elem_of_lookup_1. rewrite lookup_drop in Hi.
  eapply (partition_point_after (λ x, c x v));
    [by apply strictly_sorted_partitioned_lower| |done].
  rewrite lower_bound_partition_point by done. lia.
Qed.

(** A position with everything before it ordering before [v] and
    nothing from it on doing so is the lower bound. *)
Lemma lower_bound_unique l v n :
  strictly_sorted c l →
  n ≤ length l →
  (∀ x, x ∈ take n l → c x v = true) →
  (∀ x, x ∈ drop n l → c x v = false) →
  Std.lower_bound c l v = n.
Proof.
  intros Hl Hn Ht Hd. rewrite lower_bound_partition_point by done.
  by apply partition_point_split.
Qed.

End Bounds.
End Invariants.
(** ** The container: insert *)

Section Insert.
Context {Key : Type}.
Implicit Types (sv : sorted_vector Key) (k v : Key) (l : list Key).

(** The guard [I != end() && test(I[0])] reads an element. *)
Lemma guarded_deref sv I (test : Key → bool) :
  negb (I =? end_ sv) && deref sv I test = true ↔
  ∃ x, storage sv !! I = Some x ∧ test x = true.
Proof.
  unfold deref, end_. split.
  - intros [_ Ht]%andb_true_iff.
    destruct (storage sv !! I) as [x|]; [eauto|done].
  - intros (x & Hx & Ht). rewrite Hx. simpl. rewrite Ht, andb_true_r.
    apply negb_true_iff, Nat.eqb_neq. apply lookup_lt_Some in Hx. lia.
Qed.

Lemma holds_Exists sv v :
  holds sv v ↔ Exists (λ x, equivalent sv x v = true) (storage sv).
Proof. by rewrite Exists_exists. Qed.

Global Instance holds_dec sv v : Decision (holds sv v).
Proof.
  refine (cast_if (decide (Exists (λ x, equivalent sv x v = true) (storage sv))));
    by rewrite holds_Exists.
Qed.

Lemma elem_of_drop_elem_of l n (x : Key) : x ∈ drop n l → x ∈ l.
Proof. intros Hx. eapply elem_of_sublist; [done|apply sublist_drop]. Qed.

Lemma elem_of_take_elem_of l n (x : Key) : x ∈ take n l → x ∈ l.
Proof. intros Hx. eapply elem_of_sublist; [done|apply sublist_take]. Qed.

Section Valid.
Context sv `{!StrictWeakOrder (comp sv)}.
Hypothesis Hsorted : strictly_sorted (comp sv) (storage sv).

(** An element equivalent to [v], if the container holds one, sits at
    the lower bound of [v]. *)
Lemma holds_at_lower_bound v :
  holds sv v ↔
  ∃ x, storage sv !! lower_bound sv v = Some x ∧ equivalent sv x v = true.
Proof using All.
  split; [|intros (x & Hx & He); exists x; eauto using list_elem_of_lookup_2].
  intros (y & [j Hj]%list_elem_of_lookup_1 & [Hyv Hvy]%equivalent_true).
  unfold lower_bound. set (I := Std.lower_bound (comp sv) (storage sv) v).
  assert (I ≤ j) as Hle.
  { destruct (decide (I ≤ j)) as [|Hlt]; [done|].
    rewrite (lower_bound_before (comp sv) (storage sv) v y) in Hyv; [done..|].
    apply elem_of_take. exists j. split; [done|]. fold I. lia. }
  destruct (lookup_lt_is_Some_2 (storage sv) I) as [x Hx].
  { apply lookup_lt_Some in Hj. lia. }
  exists x. split; [done|].
  assert (comp sv x v = false) as Hxv.
  { apply (lower_bound_after (comp sv) (storage sv)); [done|].
    apply (list_elem_of_lookup_2 _ 0). rewrite lookup_drop. fold I.
    by rewrite Nat.add_0_r. }
  destruct (decide (I = j)) as [->|Hne].
  { simplify_eq. by apply equivalent_true. }
  assert (comp sv x y = true) as Hxy.
  { rewrite strictly_sorted_lookup in Hsorted.
    apply (Hsorted I j); [lia|done..]. }
  destruct (swo_between (comp sv) x y v Hxy); congruence.
Qed.

(** When the container holds no element equivalent to [v], everything
    from the lower bound on orders after [v]. *)
Lemma lower_bound_after_absent v x :
  ¬ holds sv v → x ∈ drop (lower_bound sv v) (storage sv) →
  comp sv v x = true.
Proof using All.
  intros Habs Hx.
  pose proof (lower_bound_after (comp sv) _ _ _ Hsorted Hx) as Hxv.
  destruct (comp sv v x) eqn:Hvx; [done|].
  destruct Habs. exists x. split; [by eapply elem_of_drop_elem_of|].
  by apply equivalent_true.
Qed.

Lemma insert_present v :
  holds sv v → insert sv v = (sv, (lower_bound sv v, false)).
Proof using All.
  intros Hh%holds_at_lower_bound%guarded_deref. unfold insert.
  by rewrite Hh.
Qed.

Lemma insert_absent v :
  ¬ holds sv v →
  insert sv v =
    (with_storage sv (Std.vector_insert (lower_bound sv v) v (storage sv)),
     (lower_bound sv v, true)).
Proof using All.
  intros Habs. unfold insert.
  destruct (negb _ && _) eqn:Hg; [|done].
  by apply guarded_deref, holds_at_lower_bound in Hg.
Qed.

(** Inserting at the lower bound keeps the contents strictly sorted. *)
Lemma vector_insert_sorted v :
  ¬ holds sv v →
  strictly_sorted (comp sv)
    (Std.vector_insert (lower_bound sv v) v (storage sv)).
Proof using All.
  intros Habs. unfold Std.vector_insert.
  pose proof Hsorted as Hsplit. unfold strictly_sorted in Hsplit.
  rewrite <-(take_drop (lower_bound sv v) (storage sv)) in Hsplit.
  apply StronglySorted_app in Hsplit as (Hcross & Htake & Hdrop).
  apply StronglySorted_app_2; [|done|].
  - intros x1 x2 Hx1 [->|Hx2]%elem_of_cons; [|by apply Hcross].
    by apply (lower_bound_before (comp sv) (storage sv)).
  - apply StronglySorted_cons. split; [|done].
    apply Forall_forall. intros x Hx. by apply lower_bound_after_absent.
Qed.

Lemma insert_sorted v :
  strictly_sorted (comp (insert sv v).1) (storage (insert sv v).1).
Proof using All.
  destruct (decide (holds sv v)) as [Hh|Habs].
  - by rewrite insert_present.
  - rewrite insert_absent by done. by apply vector_insert_sorted.
Qed.

Lemma insert_holds v : holds (insert sv v).1 v.
Proof using All.
  destruct (decide (holds sv v)) as [Hh|Habs].
  - by rewrite insert_present.
  - rewrite insert_absent by done. exists v. split.
    + simpl. unfold Std.vector_insert. apply elem_of_app. right. left.
    + apply (equivalent_refl sv).
Qed.

End Valid.
End Insert.

(** ** The container: insert, the claims *)

Section InsertClaims.
Context {Key : Type}.
Implicit Types (sv : sorted_vector Key) (k v : Key) (l : list Key).

Lemma insert_comp sv v : comp (insert sv v).1 = comp sv.
Proof. unfold insert. by destruct (negb _ && _). Qed.

Lemma insert_keeps_sorted sv `{!StrictWeakOrder (comp sv)} v :
  strictly_sorted (comp sv) (storage sv) →
  strictly_sorted (comp sv) (storage (insert sv v).1).
Proof. intros Hs. rewrite <-(insert_comp sv v). by apply insert_sorted. Qed.

Lemma lookup_vector_insert l n v :
  n ≤ length l → Std.vector_insert n v l !! n = Some v.
Proof.
  intros Hn. unfold Std.vector_insert.
  by rewrite list_lookup_middle by (by rewrite length_take_le).
Qed.

(** C4: on a container that satisfies I1 and I2, [insert(v)] returns
    the position of the element equivalent to [v] paired with [false]
    and changes nothing when the container holds such an element;
    otherwise it places [v] at the lower bound of [v], with the elements
    from there on shifted by one, and returns that position paired with
    [true]. *)
Theorem insert_present_or_placed sv v :
  StrictWeakOrder (comp sv) → I1 sv → I2 sv →
  (holds sv v →
     ∃ I x, insert sv v = (sv, (I, false)) ∧
            storage sv !! I = Some x ∧ equivalent sv x v = true) ∧
  (¬ holds sv v →
     ∃ I, I = lower_bound sv v ∧ I ≤ size sv ∧
          insert sv v =
            (with_storage sv (take I (storage sv) ++ v :: drop I (storage sv)),
             (I, true)) ∧
          (∀ x, x ∈ take I (storage sv) → comp sv x v = true) ∧
          (∀ x, x ∈ drop I (storage sv) → comp sv v x = true) ∧
          storage (insert sv v).1 !! I = Some v ∧
          size (insert sv v).1 = S (size sv)).
Proof.
  intros Hswo H1 H2.
  assert (strictly_sorted (comp sv) (storage sv)) as Hs
    by by apply invariants_strictly_sorted.
  split.
  - intros Hh. pose proof Hh as Hat.
    apply (holds_at_lower_bound sv Hs) in Hat as (x & Hx & He).
    exists (lower_bound sv v), x. by rewrite insert_present.
  - intros Habs. exists (lower_bound sv v).
    assert (lower_bound sv v ≤ size sv) as Hle
      by by apply lower_bound_le.
    rewrite insert_absent by done. simpl. split_and!; try done.
    + intros x. by apply lower_bound_before.
    + intros x. by apply lower_bound_after_absent.
    + by apply lookup_vector_insert.
    + unfold size, Std.vector_insert. simpl.
      rewrite length_app, length_take_le by done. simpl.
      rewrite length_drop. unfold size in Hle. lia.
Qed.

(** C7: on a container that satisfies I1 and I2, a second [insert(v)]
    right after the first leaves the container as the first left it,
    keys and size, and returns [false] as its flag. *)
Theorem insert_twice sv v :
  StrictWeakOrder (comp sv) → I1 sv → I2 sv →
  let first := insert sv v in
  let second := insert first.1 v in
  second.1 = first.1 ∧
  size second.1 = size first.1 ∧
  (∀ k, holds second.1 k ↔ holds first.1 k) ∧
  second.2.2 = false.
Proof.
  intros Hswo H1 H2 first second.
  assert (strictly_sorted (comp sv) (storage sv)) as Hs
    by by apply invariants_strictly_sorted.
  assert (StrictWeakOrder (comp first.1)) as Hswo1
    by (unfold first; by rewrite insert_comp).
  assert (second = (first.1, (lower_bound first.1 v, false))) as ->.
  { apply insert_present; [apply _|by apply insert_sorted|].
    by apply insert_holds. }
  done.
Qed.

(** *** The hinted insert *)

Lemma good_hint_true sv hint v :
  hint ≤ end_ sv →
  good_hint sv hint v = true ↔
  (∀ p, 0 < hint → storage sv !! (hint - 1) = Some p → comp sv p v = true) ∧
  (∀ x, storage sv !! hint = Some x → comp sv v x = true).
Proof.
  unfold good_hint, deref, greater, begin_, end_. intros Hle.
  destruct (Nat.eqb_spec hint 0) as [Hz|Hne0];
    destruct (Nat.eqb_spec hint (length (storage sv))) as [Hend|Hnend]; simpl.
  - subst hint. simpl. rewrite (lookup_ge_None_2 _ 0) by lia. split; [|done].
    intros _. split; [intros; lia|done].
  - subst hint. simpl. destruct (storage sv !! 0) as [x|] eqn:Hx; simpl.
    + destruct (comp sv v x) eqn:Hvx; simpl; split; try done.
      * intros _. split; [intros; lia|]. by intros ? [= <-].
      * intros [_ Hh]. by rewrite Hh in Hvx.
    + apply lookup_ge_None_1 in Hx. lia.
  - rewrite (lookup_ge_None_2 _ hint) by lia.
    destruct (storage sv !! (hint - 1)) as [p|] eqn:Hp; simpl.
    + destruct (comp sv p v) eqn:Hpv; simpl; split; try done.
      * intros _. split; [|done]. by intros ? _ [= <-].
      * intros [Hh _]. rewrite Hh in Hpv; [done|lia|done].
    + apply lookup_ge_None_1 in Hp. lia.
  - destruct (storage sv !! (hint - 1)) as [p|] eqn:Hp; simpl;
      [|apply lookup_ge_None_1 in Hp; lia].
    destruct (storage sv !! hint) as [x|] eqn:Hx; simpl;
      [|apply lookup_ge_None_1 in Hx; lia].
    destruct (comp sv p v) eqn:Hpv; simpl.
    + destruct (comp sv v x) eqn:Hvx; simpl; split; try done.
      * intros _. split; [by intros ? _ [= <-]|by intros ? [= <-]].
      * intros [_ Hh]. by rewrite Hh in Hvx.
    + split; [done|]. intros [Hh _]. rewrite Hh in Hpv; [done|lia|done].
Qed.

(** A good hint is the lower bound of a value the container does not
    hold. *)
Lemma good_hint_lower_bound sv hint v :
  StrictWeakOrder (comp sv) →
  strictly_sorted (comp sv) (storage sv) →
  hint ≤ end_ sv →
  good_hint sv hint v = true →
  lower_bound sv v = hint ∧ ¬ holds sv v.
Proof.
  intros Hswo Hs Hle [Hprev Hnext]%good_hint_true; [|done].
  pose proof Hs as Hlk. rewrite strictly_sorted_lookup in Hlk.
  unfold end_ in Hle.
  assert (∀ x, x ∈ take hint (storage sv) → comp sv x v = true) as Hbefore.
  { intros x (i & Hi & Hlt)%elem_of_take.
    destruct (lookup_lt_is_Some_2 (storage sv) (hint - 1)) as [p Hp]; [lia|].
    pose proof (Hprev p ltac:(lia) Hp) as Hpv.
    destruct (decide (i = hint - 1)) as [->|]; [congruence|].
    apply (swo_trans x p v); [|done]. apply (Hlk i (hint - 1)); [lia|done..]. }
  assert (∀ x, x ∈ drop hint (storage sv) → comp sv v x = true) as Hafter.
  { intros x [i Hi]%list_elem_of_lookup_1. rewrite lookup_drop in Hi.
    destruct (lookup_lt_is_Some_2 (storage sv) hint) as [y Hy].
    { apply lookup_lt_Some in Hi. lia. }
    pose proof (Hnext y Hy) as Hvy.
    destruct (decide (i = 0)) as [->|].
    { rewrite Nat.add_0_r in Hi. congruence. }
    apply (swo_trans v y x); [done|]. apply (Hlk hint (hint + i)); [lia|done..]. }
  split.
  - apply lower_bound_unique; [done..|].
    intros x Hx. by apply (swo_asym (comp sv)), Hafter.
  - intros (y & Hy & [Hyv Hvy]%equivalent_true).
    rewrite <-(take_drop hint (storage sv)) in Hy.
    apply elem_of_app in Hy as [Hy|Hy].
    + apply Hbefore in Hy. congruence.
    + apply Hafter in Hy. congruence.
Qed.

End InsertClaims.

(** ** The container: count, find and erase by key *)

Section Lookup.
Context {Key : Type}.
Implicit Types (sv : sorted_vector Key) (k v : Key) (l : list Key).

Section Valid.
Context sv `{!StrictWeakOrder (comp sv)}.
Hypothesis Hsorted : strictly_sorted (comp sv) (storage sv).

Lemma upper_bound_present k x :
  storage sv !! lower_bound sv k = Some x → equivalent sv x k = true →
  upper_bound sv k = S (lower_bound sv k).
Proof using All.
  intros Hx [Hxk Hkx]%equivalent_true. unfold upper_bound.
  rewrite upper_bound_partition_point by done.
  pose proof Hsorted as Hlk. rewrite strictly_sorted_lookup in Hlk.
  apply partition_point_split.
  - apply lookup_lt_Some in Hx. lia.
  - intros y (i & Hi & Hlt)%elem_of_take. apply negb_true_iff.
    destruct (decide (i = lower_bound sv k)) as [->|]; [congruence|].
    apply (swo_asym (comp sv)).
    apply (lower_bound_before (comp sv) (storage sv)); [done|].
    apply elem_of_take. exists i. split; [done|].
    fold (lower_bound sv k). lia.
  - intros y [i Hi]%list_elem_of_lookup_1. rewrite lookup_drop in Hi.
    apply negb_false_iff.
    assert (comp sv x y = true) as Hxy
      by (apply (Hlk (lower_bound sv k) (S (lower_bound sv k) + i));
          [lia|done..]).
    destruct (swo_between (comp sv) x y k Hxy); [congruence|done].
Qed.

Lemma upper_bound_absent k :
  ¬ holds sv k → upper_bound sv k = lower_bound sv k.
Proof using All.
  intros Habs. unfold upper_bound.
  rewrite upper_bound_partition_point by done.
  apply partition_point_split.
  - by apply lower_bound_le.
  - intros y Hy. apply negb_true_iff, (swo_asym (comp sv)).
    by apply (lower_bound_before (comp sv) (storage sv)).
  - intros y Hy. apply negb_false_iff. by apply lower_bound_after_absent.
Qed.

(** [count(k)] is [1] when the container holds an element equivalent to
    [k] and [0] otherwise. *)
Lemma count_holds k :
  count sv k = if decide (holds sv k) then 1 else 0.
Proof using All.
  unfold count, equal_range, Std.equal_range. simpl.
  fold (lower_bound sv k) (upper_bound sv k).
  destruct (decide (holds sv k)) as [Hh|Habs].
  - apply (holds_at_lower_bound sv Hsorted) in Hh as (x & Hx & He).
    rewrite (upper_bound_present k x) by done. lia.
  - rewrite upper_bound_absent by done. lia.
Qed.

(** What [find] returns, as the source has it: the end position for a
    key the container holds, and the lower bound of the key (the
    position of the first element after it, if any) for a key it does
    not hold. *)
Lemma find_returns k :
  find sv k = if decide (holds sv k) then end_ sv else lower_bound sv k.
Proof using All.
  unfold find. destruct (decide (holds sv k)) as [Hh|Habs].
  - apply (holds_at_lower_bound sv Hsorted) in Hh
      as (x & Hx & [Hxk Hkx]%equivalent_true).
    unfold deref. rewrite Hx. simpl. rewrite Hkx, orb_false_r.
    destruct (Nat.eqb_spec (lower_bound sv k) (end_ sv)) as [Hend|]; [|done].
    apply lookup_lt_Some in Hx. unfold end_ in Hend. lia.
  - destruct (_ || _) eqn:Hc; [done|].
    apply orb_false_iff in Hc as [Hne%Nat.eqb_neq Hd].
    destruct (lookup_lt_is_Some_2 (storage sv) (lower_bound sv k)) as [x Hx].
    { pose proof (lower_bound_le (comp sv) (storage sv) k Hsorted).
      unfold end_, lower_bound in *. lia. }
    unfold deref in Hd. rewrite Hx in Hd. simpl in Hd.
    assert (comp sv k x = true) as Hkx; [|congruence].
    apply (lower_bound_after_absent sv Hsorted); [done|].
    apply (list_elem_of_lookup_2 _ 0). by rewrite lookup_drop, Nat.add_0_r.
Qed.

(** What [erase(key)] does, as the source has it. *)
Lemma erase_returns k :
  erase sv k =
    if decide (holds sv k) then (sv, 0)
    else if decide (lower_bound sv k = end_ sv) then (sv, 0)
    else (with_storage sv (delete (lower_bound sv k) (storage sv)), 1).
Proof using All.
  unfold erase. rewrite find_returns.
  destruct (decide (holds sv k)).
  - by rewrite Nat.eqb_refl.
  - destruct (decide (lower_bound sv k = end_ sv)) as [->|Hne].
    + by rewrite Nat.eqb_refl.
    + apply Nat.eqb_neq in Hne. by rewrite Hne.
Qed.

End Valid.
End Lookup.

(** ** The container: normalization *)

Section Normalize.
Context {Key : Type}.
Implicit Types (sv : sorted_vector Key) (k v : Key) (l : list Key).

Lemma unique_from_sorted sv `{!StrictWeakOrder (comp sv)} kept l :
  Forall (λ y, comp sv y kept = false) l →
  StronglySorted (λ a b, comp sv b a = false) l →
  strictly_sorted (comp sv) (kept :: Std.unique_from (equivalent sv) kept l).
Proof.
  revert kept. induction l as [|y t IH]; intros kept Hle Hs; simpl.
  { repeat constructor. }
  apply Forall_cons in Hle as [Hyk Hle].
  apply StronglySorted_cons in Hs as [Hy Hs].
  destruct (equivalent sv kept y) eqn:He; [by apply IH|].
  apply equivalent_false in He as [Hky|?]; [|congruence].
  apply Sorted_StronglySorted; [apply _|].
  constructor; [|by constructor].
  apply StronglySorted_Sorted, IH; [|done].
  done.
Qed.

(** After the sort, the dedup pass leaves strictly sorted contents. *)
Lemma unique_sorted sv `{!StrictWeakOrder (comp sv)} l :
  Std.is_sorted (comp sv) l = true →
  strictly_sorted (comp sv) (Std.unique (equivalent sv) l).
Proof.
  intros Hs%is_sorted_Sorted%Sorted_StronglySorted; [|apply _].
  destruct l as [|x t]; simpl; [constructor|].
  apply StronglySorted_cons in Hs as [Hx Hs].
  by apply unique_from_sorted.
Qed.

Lemma unique_from_elem_of (pred : Key → Key → bool) kept l x :
  x ∈ Std.unique_from pred kept l → x ∈ l.
Proof.
  revert kept. induction l as [|y t IH]; intros kept; simpl; [done|].
  destruct (pred kept y).
  - intros ?%IH. by right.
  - intros [->|?%IH]%elem_of_cons; [left|by right].
Qed.

(** The dedup pass only drops elements. *)
Lemma unique_elem_of (pred : Key → Key → bool) l x :
  x ∈ Std.unique pred l → x ∈ l.
Proof.
  destruct l as [|y t]; simpl; [done|].
  intros [->|?%unique_from_elem_of]%elem_of_cons; [left|by right].
Qed.

Lemma unique_from_represents sv `{!StrictWeakOrder (comp sv)} kept l x :
  x ∈ l →
  ∃ y, y ∈ kept :: Std.unique_from (equivalent sv) kept l ∧
       equivalent sv y x = true.
Proof.
  revert kept. induction l as [|z t IH]; intros kept; simpl; [by intros ?%elem_of_nil|].
  intros [->|Hx]%elem_of_cons.
  - destruct (equivalent sv kept z) eqn:He.
    + exists kept. split; [left|done].
    + exists z. split; [right; left|apply (equivalent_refl sv)].
  - destruct (equivalent sv kept z) eqn:He; [by apply IH|].
    destruct (IH z Hx) as (y & Hy & Hyx). exists y. split; [by right|done].
Qed.

(** Every element is still represented after the dedup pass: by itself
    or by the equivalent element kept in its place. *)
Lemma unique_represents sv `{!StrictWeakOrder (comp sv)} l x :
  x ∈ l →
  ∃ y, y ∈ Std.unique (equivalent sv) l ∧ equivalent sv y x = true.
Proof.
  destruct l as [|z t]; simpl; [by intros ?%elem_of_nil|].
  intros [->|Hx]%elem_of_cons.
  - exists z. split; [left|apply (equivalent_refl sv)].
  - by apply unique_from_represents.
Qed.

Context `{!StdSort Key}.

Lemma sort_unique_comp sv : comp (sort_unique sv) = comp sv.
Proof. done. Qed.

Lemma sort_unique_sorted sv `{!StrictWeakOrder (comp sv)} :
  strictly_sorted (comp (sort_unique sv)) (storage (sort_unique sv)).
Proof. simpl. apply unique_sorted; [done|]. by apply std_sort_sorted. Qed.

Lemma sort_unique_elem_of sv `{!StrictWeakOrder (comp sv)} x :
  x ∈ storage (sort_unique sv) → x ∈ storage sv.
Proof.
  simpl. intros Hx%unique_elem_of. by rewrite std_sort_perm in Hx.
Qed.

Lemma sort_unique_holds sv `{!StrictWeakOrder (comp sv)} x :
  x ∈ storage sv → holds (sort_unique sv) x.
Proof.
  intros Hx. rewrite <-(std_sort_perm (comp sv)) in Hx by done.
  apply (unique_represents sv) in Hx as (y & Hy & He). by exists y.
Qed.

End Normalize.

(** ** The container: contents up to equivalence *)

Section SameKeys.
Context {Key : Type}.
Implicit Types (sv : sorted_vector Key) (k v : Key) (l : list Key).

(** Two strictly sorted sequences that represent each other's elements
    agree position by position up to equivalence. *)
Lemma strictly_sorted_same_keys sv `{!StrictWeakOrder (comp sv)} l1 l2 :
  strictly_sorted (comp sv) l1 →
  strictly_sorted (comp sv) l2 →
  (∀ a, a ∈ l1 → ∃ b, b ∈ l2 ∧ equivalent sv b a = true) →
  (∀ b, b ∈ l2 → ∃ a, a ∈ l1 ∧ equivalent sv a b = true) →
  Forall2 (λ a b, equivalent sv a b = true) l1 l2.
Proof.
  revert l2. induction l1 as [|a t1 IH]; intros [|b t2] Hs1 Hs2 H12 H21.
  - constructor.
  - destruct (H21 b) as (? & []%elem_of_nil & _). left.
  - destruct (H12 a) as (? & []%elem_of_nil & _). left.
  - apply StronglySorted_cons in Hs1 as [Ha Hs1].
    apply StronglySorted_cons in Hs2 as [Hb Hs2].
    rewrite Forall_forall in Ha, Hb.
    assert (equivalent sv a b = true) as Hab.
    { apply equivalent_true. split.
      - destruct (comp sv a b) eqn:Hc; [|done].
        destruct (H12 a) as (b1 & Hb1 & [H1 H2]%equivalent_true); [left|].
        apply elem_of_cons in Hb1 as [->|Hb1]; [congruence|].
        rewrite (swo_trans a b b1) in H2; [done..|]. by apply Hb.
      - destruct (comp sv b a) eqn:Hc; [|done].
        destruct (H21 b) as (a1 & Ha1 & [H1 H2]%equivalent_true); [left|].
        apply elem_of_cons in Ha1 as [->|Ha1]; [congruence|].
        rewrite (swo_trans b a a1) in H2; [done..|]. by apply Ha. }
    apply equivalent_true in Hab as [Hab Hba].
    constructor; [by apply equivalent_true|]. apply IH; [done..| |].
    + intros x Hx. destruct (H12 x) as (y & Hy & He); [by right|].
      apply elem_of_cons in Hy as [->|Hy]; [|by exists y].
      apply equivalent_true in He as [Hbx Hxb].
      destruct (swo_between (comp sv) a x b (Ha x Hx)); congruence.
    + intros y Hy. destruct (H21 y) as (x & Hx & He); [by right|].
      apply elem_of_cons in Hx as [->|Hx]; [|by exists x].
      apply equivalent_true in He as [Hay Hya].
      destruct (swo_between (comp sv) b y a (Hb y Hy)); congruence.
Qed.

(** *** Repeated insertion *)

Lemma insert_elem_of sv v x :
  x ∈ storage (insert sv v).1 → x ∈ storage sv ∨ x = v.
Proof.
  unfold insert. destruct (negb _ && _); simpl; [by left|].
  unfold Std.vector_insert.
  intros [?%elem_of_take_elem_of|[->|?%elem_of_drop_elem_of]%elem_of_cons]%elem_of_app;
    auto.
Qed.

Lemma insert_keeps sv v x :
  x ∈ storage sv → x ∈ storage (insert sv v).1.
Proof.
  unfold insert. destruct (negb _ && _); simpl; [done|].
  unfold Std.vector_insert. intros Hx.
  rewrite <-(take_drop (lower_bound sv v) (storage sv)) in Hx.
  apply elem_of_app in Hx as [?|?]; apply elem_of_app; [by left|].
  right. by right.
Qed.

Lemma equivalent_insert sv v a b :
  equivalent (insert sv v).1 a b = equivalent sv a b.
Proof. unfold equivalent. by rewrite insert_comp. Qed.

Lemma insert_all_comp sv l : comp (insert_all sv l) = comp sv.
Proof.
  revert sv. induction l as [|x t IH]; intros sv; simpl; [done|].
  unfold insert_all in *. simpl. by rewrite IH, insert_comp.
Qed.

Lemma insert_all_sorted sv `{!StrictWeakOrder (comp sv)} l :
  strictly_sorted (comp sv) (storage sv) →
  strictly_sorted (comp sv) (storage (insert_all sv l)).
Proof.
  revert sv StrictWeakOrder0. induction l as [|x t IH]; intros sv Hswo Hs; [done|].
  unfold insert_all in *. simpl.
  assert (StrictWeakOrder (comp (insert sv x).1)) as Hswo'
    by by rewrite insert_comp.
  rewrite <-(insert_comp sv x). apply IH; [done|]. by apply insert_sorted.
Qed.

Lemma insert_all_elem_of sv l x :
  x ∈ storage (insert_all sv l) → x ∈ storage sv ∨ x ∈ l.
Proof.
  revert sv. induction l as [|y t IH]; intros sv; [by left|].
  unfold insert_all in *. simpl.
  intros [[?| ->]%insert_elem_of|?]%IH; [by left|right; left|right; by right].
Qed.

Lemma insert_all_keeps sv l x :
  x ∈ storage sv → x ∈ storage (insert_all sv l).
Proof.
  revert sv. induction l as [|y t IH]; intros sv Hx; [done|].
  unfold insert_all in *. simpl. by apply IH, insert_keeps.
Qed.

Lemma insert_all_holds sv `{!StrictWeakOrder (comp sv)} l x :
  strictly_sorted (comp sv) (storage sv) →
  x ∈ l → holds (insert_all sv l) x.
Proof.
  revert sv StrictWeakOrder0. induction l as [|y t IH]; intros sv Hswo Hs.
  { by intros ?%elem_of_nil. }
  assert (StrictWeakOrder (comp (insert sv y).1)) as Hswo'
    by by rewrite insert_comp.
  intros [->|Hx]%elem_of_cons.
  - destruct (insert_holds sv Hs y) as (z & Hz & He).
    exists z. split.
    + by apply (insert_all_keeps (insert sv y).1 t).
    + unfold equivalent in *.
      change (insert_all sv (y :: t)) with (insert_all (insert sv y).1 t).
      by rewrite insert_all_comp.
  - apply (IH (insert sv y).1); [done| |done]. by apply insert_sorted.
Qed.

End SameKeys.

(** ** The container: the invariants under every call *)

Section Preservation.
Context {Key : Type}.
Implicit Types (sv : sorted_vector Key) (k v : Key) (l : list Key).

(** [emplace] decides as [insert] does for the value constructed first,
    and stores the element constructed second. *)
Lemma emplace_insert sv tmp again :
  emplace sv tmp again =
    if (insert sv tmp).2.2
    then (with_storage sv
            (Std.vector_insert (lower_bound sv tmp) again (storage sv)),
          (Stale (lower_bound sv tmp), true))
    else (sv, (Fresh (lower_bound sv tmp), false)).
Proof.
  unfold emplace, insert.
  destruct (Nat.eqb_spec (lower_bound sv tmp) (end_ sv)); simpl; [done|].
  by destruct (deref sv _ _).
Qed.

Lemma emplace_comp sv tmp again : comp (emplace sv tmp again).1 = comp sv.
Proof. rewrite emplace_insert. by destruct (insert sv tmp).2.2. Qed.

(** With a second construction equivalent to the first, the element
    fits where the first belongs. *)
Lemma emplace_sorted sv `{!StrictWeakOrder (comp sv)} tmp again :
  strictly_sorted (comp sv) (storage sv) →
  equivalent sv again tmp = true →
  strictly_sorted (comp sv) (storage (emplace sv tmp again).1).
Proof.
  intros Hs [Hat Hta]%equivalent_true. rewrite emplace_insert.
  destruct (decide (holds sv tmp)) as [Hh|Habs].
  { by rewrite insert_present. }
  rewrite insert_absent by done. simpl. unfold Std.vector_insert.
  pose proof Hs as Hsplit. unfold strictly_sorted in Hsplit.
  rewrite <-(take_drop (lower_bound sv tmp) (storage sv)) in Hsplit.
  apply StronglySorted_app in Hsplit as (Hcross & Htake & Hdrop).
  apply StronglySorted_app_2; [|done|].
  - intros x1 x2 Hx1 [->|Hx2]%elem_of_cons; [|by apply Hcross].
    apply (lower_bound_before (comp sv) (storage sv)) in Hx1; [|done].
    destruct (swo_between (comp sv) x1 tmp again Hx1); [done|congruence].
  - apply StronglySorted_cons. split; [|done].
    apply Forall_forall. intros x Hx.
    apply (lower_bound_after_absent sv Hs tmp) in Hx; [|done].
    destruct (swo_between (comp sv) tmp x again Hx); [congruence|done].
Qed.

(** The statements of the hinted insert leave the container as
    [insert] does; the call then flows off the end of the function. *)
Lemma insert_hint_insert sv hint v :
  StrictWeakOrder (comp sv) →
  strictly_sorted (comp sv) (storage sv) →
  hint ≤ end_ sv →
  insert_hint sv hint v = FlowsOffEnd (insert sv v).1.
Proof.
  intros Hswo Hs Hle.
  unfold insert_hint. destruct (good_hint sv hint v) eqn:Hg; [|done].
  destruct (good_hint_lower_bound sv hint v) as [Hlb Habs]; [done..|].
  rewrite insert_absent by done. simpl. by rewrite Hlb.
Qed.

(** Removing a stretch of elements keeps the rest strictly sorted. *)
Lemma strictly_sorted_cut (c : Key → Key → bool) l first last :
  first ≤ last →
  strictly_sorted c l → strictly_sorted c (take first l ++ drop last l).
Proof.
  intros Hle Hs. unfold strictly_sorted in *.
  assert (drop last l = drop (last - first) (drop first l)) as Hdrop.
  { rewrite drop_drop. f_equal. lia. }
  rewrite <-(take_drop first l) in Hs.
  apply StronglySorted_app in Hs as (Hcross & Htake & Hrest).
  apply StronglySorted_app_2; [|done|].
  - intros x1 x2 Hx1 Hx2. apply Hcross; [done|].
    rewrite Hdrop in Hx2. by eapply elem_of_drop_elem_of.
  - rewrite Hdrop. rewrite <-(take_drop (last - first) (drop first l)) in Hrest.
    by apply StronglySorted_app_1_r in Hrest.
Qed.

Lemma strictly_sorted_delete (c : Key → Key → bool) l pos :
  strictly_sorted c l → strictly_sorted c (delete pos l).
Proof.
  intros Hs. rewrite delete_take_drop. apply strictly_sorted_cut; [lia|done].
Qed.

Lemma erase_sorted sv `{!StrictWeakOrder (comp sv)} k :
  strictly_sorted (comp sv) (storage sv) →
  strictly_sorted (comp sv) (storage (erase sv k).1).
Proof.
  intros Hs. unfold erase. destruct (negb _); simpl; [|done].
  by apply strictly_sorted_delete.
Qed.

Context `{!StdSort Key}.

Lemma insert_range_sorted sv `{!StrictWeakOrder (comp sv)} category l :
  strictly_sorted (comp sv) (storage sv) →
  strictly_sorted (comp sv) (storage (insert_range sv category l)).
Proof.
  intros Hs. unfold insert_range. destruct (empty sv).
  - apply (sort_unique_sorted (with_storage sv _)).
  - by apply insert_all_sorted.
Qed.

Lemma run_call_comp sv c : comp (run_call sv c) = comp sv.
Proof.
  destruct c; simpl; try done.
  - apply insert_comp.
  - unfold insert_range. destruct (empty sv); [done|apply insert_all_comp].
  - unfold insert_ilist, insert_range.
    destruct (empty sv); [done|apply insert_all_comp].
  - apply emplace_comp.
  - apply emplace_comp.
  - unfold erase. by destruct (negb _).
Qed.

(** One call, made within the preconditions of the source, keeps the
    contents strictly sorted. *)
Lemma run_call_sorted sv `{!StrictWeakOrder (comp sv)} c :
  call_ok sv c →
  strictly_sorted (comp sv) (storage sv) →
  strictly_sorted (comp sv) (storage (run_call sv c)).
Proof.
  intros Hok Hs. destruct c; simpl in *.
  - by apply insert_keeps_sorted.
  - by apply insert_range_sorted.
  - by apply insert_range_sorted.
  - by apply emplace_sorted.
  - destruct Hok as [_ He]. by apply emplace_sorted.
  - by apply strictly_sorted_delete.
  - apply strictly_sorted_cut; [by destruct Hok|done].
  - by apply erase_sorted.
  - constructor.
Qed.

(** Every sequence of returning calls on one container, each within
    its preconditions, keeps [validate()] true. *)
Lemma run_calls_validate sv cs :
  StrictWeakOrder (comp sv) →
  validate sv = true →
  calls_ok sv cs →
  ∀ n, validate (foldl run_call sv (take n cs)) = true.
Proof.
  revert sv. induction cs as [|c cs IH]; intros sv Hswo Hv Hok n.
  { by rewrite take_nil. }
  destruct n as [|n]; [done|]. simpl. destruct Hok as [Hc Hok].
  assert (StrictWeakOrder (comp (run_call sv c))) as Hswo'
    by by rewrite run_call_comp.
  apply IH; [done| |done].
  apply validate_strictly_sorted; [done|]. rewrite run_call_comp.
  apply run_call_sorted; [done..|]. by apply validate_strictly_sorted.
Qed.

End Preservation.

(** Construction, copy assignment and a swap between containers that
    order their keys alike keep [validate()] true as well. *)
Section PreservationAcross.
Context {Key : Type} `{!StdSort Key}.
Implicit Types (sv other : sorted_vector Key) (l : list Key).

Lemma new_validate (c : Key → Key → bool) : validate (new c) = true.
Proof. done. Qed.

Lemma from_range_validate l (c : Key → Key → bool) :
  StrictWeakOrder c → validate (from_range l c) = true.
Proof.
  intros Hswo. apply validate_strictly_sorted; [done|].
  apply (sort_unique_sorted (SV l c)).
Qed.

Lemma from_ilist_validate l (c : Key → Key → bool) :
  StrictWeakOrder c → validate (from_ilist l c) = true.
Proof. apply from_range_validate. Qed.

Lemma assign_validate sv other :
  validate other = true → validate (assign sv other) = true.
Proof. done. Qed.

Lemma swap_validate sv other :
  comp sv = comp other →
  validate sv = true → validate other = true →
  validate (swap sv other).1 = true ∧ validate (swap sv other).2 = true.
Proof.
  destruct sv as [l1 c1], other as [l2 c2]. simpl. intros ->. done.
Qed.

End PreservationAcross.

(** ** Integer keys *)

Section Integers.
Open Scope Z_scope.

Global Instance Z_ltb_swo : StrictWeakOrder Z.ltb.
Proof.
  split.
  - intros x. apply Z.ltb_irrefl.
  - intros x y z ?%Z.ltb_lt ?%Z.ltb_lt. apply Z.ltb_lt. lia.
  - intros x y z ?%Z.ltb_ge ?%Z.ltb_ge ?%Z.ltb_ge ?%Z.ltb_ge.
    split; apply Z.ltb_ge; lia.
Qed.

Global Instance Z_gtb_swo : StrictWeakOrder Z.gtb.
Proof.
  split.
  - intros x. rewrite Z.gtb_ltb. apply Z.ltb_irrefl.
  - intros x y z. rewrite !Z.gtb_ltb.
    intros ?%Z.ltb_lt ?%Z.ltb_lt. apply Z.ltb_lt. lia.
  - intros x y z. rewrite !Z.gtb_ltb.
    intros ?%Z.ltb_ge ?%Z.ltb_ge ?%Z.ltb_ge ?%Z.ltb_ge.
    split; apply Z.ltb_ge; lia.
Qed.

(** Under [<] on the integers, equivalent keys are equal. *)
Lemma Z_ltb_equivalent l (a b : Z) :
  equivalent (SV l Z.ltb) a b = true → a = b.
Proof. intros [?%Z.ltb_ge ?%Z.ltb_ge]%equivalent_true. lia. Qed.

End Integers.

(** ** The reference sort meets the contract *)

Lemma reference_sort_perm {Key : Type} (c : Key → Key → bool) l :
  StrictWeakOrder c → reference_sort c l ≡ₚ l.
Proof. intros _. apply merge_sort_Permutation. Qed.

Lemma reference_sort_sorted {Key : Type} (c : Key → Key → bool) l :
  StrictWeakOrder c → Std.is_sorted c (reference_sort c l) = true.
Proof.
  intros Hswo. apply is_sorted_Sorted.
  unfold reference_sort. apply (Sorted_merge_sort (λ a b, c b a = false)).
Qed.

Definition reference_StdSort (Key : Type) : StdSort Key :=
  {| std_sort := reference_sort;
     std_sort_perm := reference_sort_perm;
     std_sort_sorted := reference_sort_sorted |}.

Example from_ilist_reference :
  storage (@from_ilist Z (reference_StdSort Z) [5; 1; 3; 1; 5; 2]%Z Z.ltb)
  = [1; 2; 3; 5]%Z.
Proof. vm_compute. reflexivity. Qed.

(** ** The container: creation and bulk insertion *)

Section Creation.
Context {Key : Type} `{!StdSort Key}.
Implicit Types (sv old : sorted_vector Key) (k v : Key) (l : list Key).

Lemma sorted_vector_eq sv other :
  storage sv = storage other → comp sv = comp other → sv = other.
Proof. destruct sv, other. simpl. by intros -> ->. Qed.

Lemma empty_storage sv : empty sv = true ↔ storage sv = [].
Proof. unfold empty. apply bool_decide_eq_true. Qed.

Lemma sort_unique_normalized sv :
  StrictWeakOrder (comp sv) →
  normalized (comp sv) (storage sv) (sort_unique sv).
Proof.
  intros Hswo. split_and!; try done.
  - by apply (invariants_strictly_sorted (sort_unique sv)), sort_unique_sorted.
  - by apply (invariants_strictly_sorted (sort_unique sv)), sort_unique_sorted.
  - intros x. by apply sort_unique_holds.
  - intros x. by apply sort_unique_elem_of.
Qed.

Lemma insert_range_empty sv category l :
  empty sv = true →
  insert_range sv category l = sort_unique (with_storage sv l).
Proof.
  intros He. unfold insert_range. rewrite He.
  apply empty_storage in He. by rewrite He, app_nil_r.
Qed.

(** A normalized input and the same values inserted one at a time, in
    any order, agree position by position up to equivalence. *)
Lemma normalized_insert_all (c : Key → Key → bool) l l' sv sv0 :
  StrictWeakOrder c →
  normalized c l sv →
  comp sv0 = c → storage sv0 = [] →
  l ≡ₚ l' →
  Forall2 (λ a b, equivalent sv a b = true)
    (storage sv) (storage (insert_all sv0 l')).
Proof.
  intros Hswo (Hc & _ & H1 & H2 & Hholds & Helem) Hc0 He Hperm. subst c.
  assert (StrictWeakOrder (comp sv0)) as Hswo0 by by rewrite Hc0.
  assert (strictly_sorted (comp sv0) (storage sv0)) as Hs0
    by (rewrite He; constructor).
  apply strictly_sorted_same_keys; [done| | | |].
  - by apply invariants_strictly_sorted.
  - rewrite <-Hc0. by apply insert_all_sorted.
  - intros a Ha%Helem. rewrite Hperm in Ha.
    destruct (insert_all_holds sv0 l' a Hs0 Ha) as (b & Hb & Hba).
    exists b. split; [done|].
    unfold equivalent in *. by rewrite insert_all_comp, Hc0 in Hba.
  - intros b [Hb|Hb]%insert_all_elem_of.
    { rewrite He in Hb. by apply elem_of_nil in Hb. }
    apply Hholds. by rewrite Hperm.
Qed.

Lemma Forall2_elem_of_impl {A B : Type} (P Q : A → B → Prop)
    (xs : list A) (ys : list B) :
  Forall2 P xs ys →
  (∀ x y, x ∈ xs → y ∈ ys → P x y → Q x y) →
  Forall2 Q xs ys.
Proof.
  induction 1 as [|x y xs ys Hxy Hlk IH]; intros Himpl; constructor.
  - apply Himpl; [left|left|done].
  - apply IH. intros a b Ha Hb. apply Himpl; by right.
Qed.

(** C8, as amended: bulk insertion of the values of a range (of either
    category) into an empty container (append, then sort and dedup) and
    insertion of the same values one at a time, in any order, lead to
    the same keys up to the equivalence of the comparator: both results
    satisfy the invariants, have the same size and agree position by
    position up to equivalence; they are identical when no two different
    values of the input are equivalent. *)
Theorem bulk_insert_as_one_by_one sv category l l' :
  StrictWeakOrder (comp sv) →
  empty sv = true →
  l ≡ₚ l' →
  same_keys (insert_range sv category l) (insert_all sv l') ∧
  size (insert_range sv category l) = size (insert_all sv l') ∧
  validate (insert_range sv category l) = true ∧
  validate (insert_all sv l') = true ∧
  ((∀ a b, a ∈ l → b ∈ l → equivalent sv a b = true → a = b) →
     insert_range sv category l = insert_all sv l').
Proof.
  intros Hswo He Hperm.
  rewrite !(insert_range_empty sv category l He).
  assert (Forall2 (λ a b, equivalent (sort_unique (with_storage sv l)) a b
                          = true)
            (storage (sort_unique (with_storage sv l)))
            (storage (insert_all sv l')))
    as Hkeys.
  { apply (normalized_insert_all (comp sv) l l'); [done| |done| |done].
    - apply (sort_unique_normalized (with_storage sv l)). done.
    - by apply empty_storage. }
  assert (strictly_sorted (comp sv) (storage sv)) as Hs.
  { apply empty_storage in He. rewrite He. constructor. }
  split_and!.
  - done.
  - by apply Forall2_length in Hkeys.
  - apply (validate_strictly_sorted (sort_unique (with_storage sv l))).
    apply (sort_unique_sorted (with_storage sv l)).
  - assert (StrictWeakOrder (comp (insert_all sv l')))
      by by rewrite insert_all_comp.
    apply validate_strictly_sorted; [done|]. rewrite insert_all_comp.
    by apply insert_all_sorted.
  - intros Heq. apply sorted_vector_eq; [|by rewrite insert_all_comp].
    apply list_eq_Forall2.
    eapply Forall2_elem_of_impl; [exact Hkeys|].
    intros a b Ha Hb Hab. apply Heq; [| |exact Hab].
    + by apply (sort_unique_elem_of (with_storage sv l)) in Ha.
    + apply insert_all_elem_of in Hb as [Hb|Hb].
      * apply empty_storage in He. rewrite He in Hb.
        by apply elem_of_nil in Hb.
      * by rewrite Hperm.
Qed.

End Creation.

(** C6: built from [5; 1; 3; 1; 5; 2] under [<], the container holds
    exactly [1; 2; 3; 5], whatever conforming sort runs underneath; and
    every creation path that takes arbitrary input (the range and list
    constructors, the range insert into an empty container) leaves the
    input sorted by the comparator with each run of equivalent values
    collapsed to one representative. *)
Theorem creation_normalizes {SZ : StdSort Z} {Key : Type} {SK : StdSort Key} :
  storage (from_ilist [5; 1; 3; 1; 5; 2]%Z Z.ltb) = [1; 2; 3; 5]%Z ∧
  ∀ (c : Key → Key → bool) (l : list Key),
    StrictWeakOrder c →
    normalized c l (from_range l c) ∧
    normalized c l (from_ilist l c) ∧
    (∀ old category, comp old = c → empty old = true →
            normalized c l (insert_range old category l)).
Proof.
  split.
  - apply list_eq_Forall2.
    assert (normalized Z.ltb [5; 1; 3; 1; 5; 2]%Z
              (from_ilist [5; 1; 3; 1; 5; 2]%Z Z.ltb)) as Hn
      by exact (sort_unique_normalized (SV [5; 1; 3; 1; 5; 2]%Z Z.ltb)
                  Z_ltb_swo).
    pose proof (normalized_insert_all Z.ltb _ [5; 1; 3; 1; 5; 2]%Z _
                  (new Z.ltb) Z_ltb_swo Hn eq_refl eq_refl
                  (reflexivity _)) as Hkeys.
    eapply Forall2_impl; [exact Hkeys|].
    intros a b. apply (Z_ltb_equivalent []).
  - intros c l Hswo. split_and!.
    + by apply (sort_unique_normalized (SV l c)).
    + by apply (sort_unique_normalized (SV l c)).
    + intros old category <- He. rewrite insert_range_empty by done.
      by apply (sort_unique_normalized (with_storage old l)).
Qed.

(** ** Where the code departs from its description *)

Section Departures.
Open Scope Z_scope.

Lemma validate_invariants {Key : Type} (sv : sorted_vector Key) :
  StrictWeakOrder (comp sv) → validate sv = true → I1 sv ∧ I2 sv.
Proof. intros Hswo Hv. by apply invariants_validate. Qed.

(** C1, at the container [1; 2; 3] under [<], which satisfies I1 and
    I2: the key 2 is held ([count] is 1) and [find] returns the end
    position for it; the key 0 is not held ([count] is 0) and [find]
    returns the position of the element 1 for it. The test after the
    lower bound in [find] is the opposite of the one in [insert]. *)
Theorem find_returns_end_for_held_key :
  (I1 one_two_three ∧ I2 one_two_three) ∧
  (count one_two_three 2 = 1%nat ∧
   find one_two_three 2 = end_ one_two_three) ∧
  (count one_two_three 0 = 0%nat ∧
   find one_two_three 0 ≠ end_ one_two_three ∧
   storage one_two_three !! find one_two_three 0 = Some 1).
Proof.
  split_and!.
  - by apply (validate_invariants one_two_three Z_ltb_swo).
  - by apply (validate_invariants one_two_three Z_ltb_swo).
  - reflexivity.
  - reflexivity.
  - reflexivity.
  - vm_compute. discriminate.
  - reflexivity.
Qed.

(** C2, at the same container: [erase(2)], of a key that is held,
    removes nothing and returns 0; [erase(0)], of a key that is not
    held, removes the element 1 and returns 1. Both follow from what
    [find] returns. *)
Theorem erase_keeps_held_key :
  (I1 one_two_three ∧ I2 one_two_three) ∧
  (holds one_two_three 2 ∧
   erase one_two_three 2 = (one_two_three, 0%nat)) ∧
  (¬ holds one_two_three 0 ∧
   erase one_two_three 0 = (SV [2; 3] Z.ltb, 1%nat)).
Proof.
  split_and!.
  - by apply (validate_invariants one_two_three Z_ltb_swo).
  - by apply (validate_invariants one_two_three Z_ltb_swo).
  - exists 2. split; [|reflexivity]. right. left.
  - reflexivity.
  - intros (x & Hx & He). apply (Z_ltb_equivalent [1; 2; 3]) in He as ->.
    by repeat (apply elem_of_cons in Hx as [?|Hx]; [done|]);
      apply elem_of_nil in Hx.
  - reflexivity.
Qed.

(** C3, at two containers of one type whose comparator objects differ,
    [1; 2] under [<] and the empty container under [>]: both pass
    [validate()], and after [swap], which exchanges the vectors and
    leaves each comparator in place, the second holds [1; 2] under [>]
    and fails [validate()]. *)
Theorem swap_breaks_validate :
  validate ascending = true ∧ validate descending = true ∧
  (swap ascending descending).2 = SV [1; 2] Z.gtb ∧
  validate (swap ascending descending).2 = false.
Proof. by split_and!. Qed.

(** C5, at the container [1; 3; 5] under [<]: the hinted insert of 4
    with the good hint 2, and with the bad hint 0, runs its statements,
    which leave [1; 3; 4; 5], and then flows off the end of the
    function: neither call returns the iterator the function is declared
    to return, and the behaviour of both is undefined. *)
Theorem insert_hint_flows_off_end :
  (I1 one_three_five ∧ I2 one_three_five) ∧
  (good_hint one_three_five 2 4 = true ∧
   insert_hint one_three_five 2 4 = FlowsOffEnd (SV [1; 3; 4; 5] Z.ltb)) ∧
  (good_hint one_three_five 0 4 = false ∧
   insert_hint one_three_five 0 4 = FlowsOffEnd (SV [1; 3; 4; 5] Z.ltb)).
Proof.
  split_and!; try reflexivity.
  - by apply (validate_invariants one_three_five Z_ltb_swo).
  - by apply (validate_invariants one_three_five Z_ltb_swo).
Qed.

Global Instance by_first_swo : StrictWeakOrder by_first.
Proof.
  unfold by_first. split.
  - intros x. apply Z.ltb_irrefl.
  - intros x y z ?%Z.ltb_lt ?%Z.ltb_lt. apply Z.ltb_lt. lia.
  - intros x y z ?%Z.ltb_ge ?%Z.ltb_ge ?%Z.ltb_ge ?%Z.ltb_ge.
    split; apply Z.ltb_ge; lia.
Qed.

(** Whatever the bulk path keeps of two equivalent values, one of the
    two orders of inserting them one at a time keeps the other. *)
Lemma one_by_one_keeps_first :
  storage (insert_all (new by_first) [(1, 10); (1, 11)]) = [(1, 10)] ∧
  storage (insert_all (new by_first) [(1, 11); (1, 10)]) = [(1, 11)].
Proof. by split. Qed.

(** C8 as stated fails: under the strict weak order that compares pairs
    by their first component, the bulk insert of (1,10), (1,11) into the
    empty container leaves (1,10), and inserting the same two values one
    at a time in the other order leaves (1,11). *)
Lemma bulk_insert_keeps_other_value :
  StrictWeakOrder by_first ∧
  [(1, 10); (1, 11)] ≡ₚ [(1, 11); (1, 10)] ∧
  storage (@insert_range (Z * Z) (reference_StdSort (Z * Z)) (new by_first)
             MultiPass [(1, 10); (1, 11)]) = [(1, 10)] ∧
  storage (insert_all (new by_first) [(1, 11); (1, 10)]) = [(1, 11)] ∧
  storage (@insert_range (Z * Z) (reference_StdSort (Z * Z)) (new by_first)
             MultiPass [(1, 10); (1, 11)])
  ≠ storage (insert_all (new by_first) [(1, 11); (1, 10)]).
Proof.
  split_and!; [apply _|apply perm_swap|reflexivity|reflexivity|].
  vm_compute. discriminate.
Qed.

End Departures.

(** ** The claims at concrete containers *)

Section Witnesses.
Open Scope Z_scope.

Lemma one_three_five_invariants : I1 one_three_five ∧ I2 one_three_five.
Proof. by apply (validate_invariants one_three_five Z_ltb_swo). Qed.

Lemma insert_present_or_placed_witness :
  (StrictWeakOrder (comp one_three_five) ∧
   I1 one_three_five ∧ I2 one_three_five) ∧
  (holds one_three_five 4 →
     ∃ I x, insert one_three_five 4 = (one_three_five, (I, false)) ∧
            storage one_three_five !! I = Some x ∧
            equivalent one_three_five x 4 = true) ∧
  (¬ holds one_three_five 4 →
     ∃ I, I = lower_bound one_three_five 4 ∧ (I ≤ size one_three_five)%nat ∧
          insert one_three_five 4 =
            (with_storage one_three_five
               (take I (storage one_three_five) ++
                4 :: drop I (storage one_three_five)),
             (I, true)) ∧
          (∀ x, x ∈ take I (storage one_three_five) →
                comp one_three_five x 4 = true) ∧
          (∀ x, x ∈ drop I (storage one_three_five) →
                comp one_three_five 4 x = true) ∧
          storage (insert one_three_five 4).1 !! I = Some 4 ∧
          size (insert one_three_five 4).1 = S (size one_three_five)).
Proof.
  destruct one_three_five_invariants as [H1 H2].
  split; [split; [exact Z_ltb_swo|split; [exact H1|exact H2]]|].
  exact (insert_present_or_placed one_three_five 4 Z_ltb_swo H1 H2).
Defined.

Lemma insert_twice_witness :
  (StrictWeakOrder (comp one_three_five) ∧
   I1 one_three_five ∧ I2 one_three_five) ∧
  (insert (insert one_three_five 4).1 4).1 = (insert one_three_five 4).1 ∧
  size (insert (insert one_three_five 4).1 4).1
    = size (insert one_three_five 4).1 ∧
  (∀ k, holds (insert (insert one_three_five 4).1 4).1 k ↔
        holds (insert one_three_five 4).1 k) ∧
  (insert (insert one_three_five 4).1 4).2.2 = false.
Proof.
  destruct one_three_five_invariants as [H1 H2].
  split; [split; [exact Z_ltb_swo|split; [exact H1|exact H2]]|].
  exact (insert_twice one_three_five 4 Z_ltb_swo H1 H2).
Defined.

Lemma bulk_insert_as_one_by_one_witness :
  (StrictWeakOrder (comp (new Z.ltb)) ∧
   empty (new Z.ltb) = true ∧
   [3; 1; 2; 1] ≡ₚ [1; 3; 2; 1]) ∧
  same_keys
    (@insert_range Z (reference_StdSort Z) (new Z.ltb) SinglePass [3; 1; 2; 1])
    (insert_all (new Z.ltb) [1; 3; 2; 1]) ∧
  size
    (@insert_range Z (reference_StdSort Z) (new Z.ltb) SinglePass [3; 1; 2; 1])
    = size (insert_all (new Z.ltb) [1; 3; 2; 1]) ∧
  validate
    (@insert_range Z (reference_StdSort Z) (new Z.ltb) SinglePass [3; 1; 2; 1])
    = true ∧
  validate (insert_all (new Z.ltb) [1; 3; 2; 1]) = true ∧
  ((∀ a b, a ∈ [3; 1; 2; 1] → b ∈ [3; 1; 2; 1] →
           equivalent (new Z.ltb) a b = true → a = b) →
     @insert_range Z (reference_StdSort Z) (new Z.ltb) SinglePass [3; 1; 2; 1]
       = insert_all (new Z.ltb) [1; 3; 2; 1]).
Proof.
  assert ([3; 1; 2; 1] ≡ₚ [1; 3; 2; 1]) as Hperm by apply perm_swap.
  split; [split; [exact Z_ltb_swo|split; [reflexivity|exact Hperm]]|].
  exact (@bulk_insert_as_one_by_one Z (reference_StdSort Z) (new Z.ltb)
           SinglePass [3; 1; 2; 1] [1; 3; 2; 1] Z_ltb_swo eq_refl Hperm).
Defined.

Lemma creation_normalizes_witness :
  StrictWeakOrder Z.gtb ∧
  storage (@from_ilist Z (reference_StdSort Z) [5; 1; 3; 1; 5; 2] Z.ltb)
    = [1; 2; 3; 5] ∧
  @normalized Z (reference_StdSort Z) Z.gtb [2; 7; 2]
    (@from_range Z (reference_StdSort Z) [2; 7; 2] Z.gtb).
Proof.
  destruct (@creation_normalizes (reference_StdSort Z) Z (reference_StdSort Z))
    as [Hround Hall].
  destruct (Hall Z.gtb [2; 7; 2] Z_gtb_swo) as [Hrange _].
  split; [exact Z_gtb_swo|]. split; [exact Hround|exact Hrange].
Defined.

End Witnesses.

End SortedVectorFacts.

(** ** The semaphore *)

Module SemaphoreFacts.
Import Semaphore.
Open Scope Z_scope.

Lemma wrap_in_range z : 0 ≤ z < 2 ^ 32 → wrap z = z.
Proof. intros Hz. unfold wrap. by apply Z.mod_small. Qed.

(** C9: [try_wait()] always returns, it never suspends its thread; with
    a positive count it takes exactly one off the count, leaves the
    waiters alone and returns [true]; with a count of zero it returns
    [false] and leaves the semaphore as it is. *)
Theorem try_wait_never_suspends (s : semaphore) :
  in_range s →
  (∃ s' b, try_wait s = (s', Returns b)) ∧
  (0 < count s →
     try_wait s = (Sem (count s - 1) (waiters s), Returns true)) ∧
  (count s = 0 → try_wait s = (s, Returns false)).
Proof.
  intros [Hc Hw]. unfold try_wait. split_and!.
  - destruct (count s >? 0); eauto.
  - intros Hpos. rewrite (proj2 (Z.gtb_gt _ _)) by lia.
    by rewrite wrap_in_range by lia.
  - intros ->. done.
Qed.

Lemma try_wait_never_suspends_witness :
  in_range (Sem 2 1) ∧
  (∃ s' b, try_wait (Sem 2 1) = (s', Returns b)) ∧
  (0 < count (Sem 2 1) →
     try_wait (Sem 2 1) =
       (Sem (count (Sem 2 1) - 1) (waiters (Sem 2 1)), Returns true)) ∧
  (count (Sem 2 1) = 0 → try_wait (Sem 2 1) = (Sem 2 1, Returns false)).
Proof.
  assert (in_range (Sem 2 1)) as Hr by (unfold in_range; simpl; lia).
  split; [exact Hr|]. exact (try_wait_never_suspends (Sem 2 1) Hr).
Defined.

End SemaphoreFacts.

(** ** The raw array *)

Module RawArrayFacts.
Import RawArray Samples.

(** C10: [capacity()] is [N] whatever the cells hold; for an index
    below [N], a read through [operator[]] right after a write of [v]
    through it yields [v], and the cells at the other indices below [N]
    are as before. The index is not checked, so that [index < N] is a
    precondition. *)
Theorem subscript_store_load {T : Type} {N : nat} (a : raw_array T N)
    (index : nat) (v : T) :
  index < N →
  capacity a = N ∧
  capacity (store (subscript index) v a) = N ∧
  load (subscript index) (store (subscript index) v a) = Some v ∧
  subscript_const (store (subscript index) v a) index = Some v ∧
  ∀ j, j ≠ index → j < N →
    load (subscript j) (store (subscript index) v a) = load (subscript j) a ∧
    is_Some (load (subscript j) a).
Proof.
  intros Hlt. pose proof (data_length a) as Hlen.
  split_and!; try done.
  - simpl. apply list_lookup_insert_eq. lia.
  - unfold subscript_const. simpl. apply list_lookup_insert_eq. lia.
  - intros j Hne Hj. simpl. split.
    + by apply list_lookup_insert_ne.
    + apply lookup_lt_is_Some. lia.
Qed.

Lemma subscript_store_load_witness :
  1 < 3 ∧
  capacity three_cells = 3 ∧
  capacity (store (subscript 1) 7%Z three_cells) = 3 ∧
  load (subscript 1) (store (subscript 1) 7%Z three_cells) = Some 7%Z ∧
  subscript_const (store (subscript 1) 7%Z three_cells) 1 = Some 7%Z ∧
  ∀ j, j ≠ 1 → j < 3 →
    load (subscript j) (store (subscript 1) 7%Z three_cells)
      = load (subscript j) three_cells ∧
    is_Some (load (subscript j) three_cells).
Proof.
  assert (1 < 3) as Hlt by lia.
  split; [exact Hlt|]. exact (subscript_store_load three_cells 1 7%Z Hlt).
Defined.

End RawArrayFacts.

(** * Further properties of the container *)

Module SortedVectorLaws.
Import Std StdFacts SortedVector SortedVectorFacts Samples.

(** ** Lookup *)

Section LookupLaws.
Context {Key : Type}.
Implicit Types (sv : sorted_vector Key) (k v : Key) (l : list Key).

Lemma lower_bound_lookup sv `{!StrictWeakOrder (comp sv)} k i x :
  strictly_sorted (comp sv) (storage sv) →
  storage sv !! i = Some x →
  i < lower_bound sv k ↔ comp sv x k = true.
Proof.
  intros Hs Hi. unfold lower_bound.
  rewrite lower_bound_partition_point by done. split.
  - intros (y & Hy & Hp)%(partition_point_before (λ x, comp sv x k)).
    congruence.
  - intros Hx.
    destruct (decide (i < partition_point (λ x, comp sv x k) (storage sv)))
      as [|Hge]; [done|].
    rewrite (partition_point_after (λ x, comp sv x k) (storage sv) i x) in Hx;
      [done| |lia|done].
    by apply strictly_sorted_partitioned_lower.
Qed.

Lemma upper_bound_lookup sv `{!StrictWeakOrder (comp sv)} k i x :
  strictly_sorted (comp sv) (storage sv) →
  storage sv !! i = Some x →
  i < upper_bound sv k ↔ comp sv k x = false.
Proof.
  intros Hs Hi. unfold upper_bound.
  rewrite upper_bound_partition_point by done. split.
  - intros (y & Hy & Hp)%(partition_point_before (λ x, negb (comp sv k x))).
    apply negb_true_iff in Hp. congruence.
  - intros Hx.
    destruct (decide (i < partition_point (λ x, negb (comp sv k x)) (storage sv)))
      as [|Hge]; [done|].
    assert (negb (comp sv k x) = false) as Hn.
    { apply (partition_point_after (λ x, negb (comp sv k x)) (storage sv) i);
        [|lia|done].
      by apply strictly_sorted_partitioned_upper. }
    apply negb_false_iff in Hn. congruence.
Qed.

Lemma bounds_adjacent sv `{!StrictWeakOrder (comp sv)} k :
  strictly_sorted (comp sv) (storage sv) →
  upper_bound sv k = lower_bound sv k + count sv k ∧
  count sv k ≤ 1 ∧ upper_bound sv k ≤ size sv.
Proof.
  intros Hs. rewrite (count_holds sv Hs).
  pose proof (lower_bound_le (comp sv) (storage sv) k Hs) as Hle.
  fold (lower_bound sv k) in Hle. unfold size.
  destruct (decide (holds sv k)) as [Hh|Habs].
  - apply (holds_at_lower_bound sv Hs) in Hh as (x & Hx & He).
    rewrite (upper_bound_present sv Hs k x) by done.
    apply lookup_lt_Some in Hx. lia.
  - rewrite (upper_bound_absent sv Hs k) by done. lia.
Qed.

(** X1: under a strict weak order, [validate()] returns true exactly
    when the contents satisfy I1 (no element orders before an earlier
    one) and I2 (no two elements are equivalent). *)
Theorem validate_decides_invariants sv :
  StrictWeakOrder (comp sv) →
  validate sv = true ↔ I1 sv ∧ I2 sv.
Proof. intros Hswo. symmetry. by apply invariants_validate. Qed.

(** X2: on a container that satisfies the invariants, [lower_bound(k)]
    lies within the container, and an element orders before [k] exactly
    when it sits before that position: the position is that of the first
    element not ordered before [k]. *)
Theorem lower_bound_first_not_before sv k :
  StrictWeakOrder (comp sv) → I1 sv → I2 sv →
  lower_bound sv k ≤ size sv ∧
  ∀ i x, storage sv !! i = Some x →
    (i < lower_bound sv k ↔ comp sv x k = true).
Proof.
  intros Hswo H1 H2.
  assert (strictly_sorted (comp sv) (storage sv)) as Hs
    by by apply invariants_strictly_sorted.
  split; [by apply lower_bound_le|].
  intros i x. by apply lower_bound_lookup.
Qed.

(** X3: on a container that satisfies the invariants, [upper_bound(k)]
    is the position of the first element ordered after [k]: [k] orders
    before an element exactly when the element sits at that position or
    later. It is the lower bound or the position right after it. *)
Theorem upper_bound_first_after sv k :
  StrictWeakOrder (comp sv) → I1 sv → I2 sv →
  upper_bound sv k ≤ size sv ∧
  lower_bound sv k ≤ upper_bound sv k ≤ S (lower_bound sv k) ∧
  ∀ i x, storage sv !! i = Some x →
    (upper_bound sv k ≤ i ↔ comp sv k x = true).
Proof.
  intros Hswo H1 H2.
  assert (strictly_sorted (comp sv) (storage sv)) as Hs
    by by apply invariants_strictly_sorted.
  destruct (bounds_adjacent sv k Hs) as (Hu & Hc & Hle).
  split_and!; [done|lia|lia|].
  intros i x Hi. pose proof (upper_bound_lookup sv k i x Hs Hi) as Hiff.
  destruct (comp sv k x); split; try done.
  - intros _. destruct (decide (upper_bound sv k ≤ i)); [done|].
    assert (i < upper_bound sv k) as Hlt%Hiff by lia. done.
  - intros Hge. assert (i < upper_bound sv k) by by apply Hiff. lia.
Qed.

(** X4: on a container that satisfies the invariants, [count(k)] is 1
    when the container holds an element equivalent to [k] and 0 when it
    holds none. *)
Theorem count_one_or_zero sv k :
  StrictWeakOrder (comp sv) → I1 sv → I2 sv →
  (holds sv k → count sv k = 1) ∧ (¬ holds sv k → count sv k = 0).
Proof.
  intros Hswo H1 H2.
  assert (strictly_sorted (comp sv) (storage sv)) as Hs
    by by apply invariants_strictly_sorted.
  rewrite (count_holds sv Hs). by destruct (decide (holds sv k)).
Qed.

(** X5: on a container that satisfies the invariants, the range
    [equal_range(k)] returns starts at the lower bound, spans [count(k)]
    positions, and the elements inside it are exactly those equivalent
    to [k]. *)
Theorem equal_range_delimits_match sv k :
  StrictWeakOrder (comp sv) → I1 sv → I2 sv →
  equal_range sv k = (lower_bound sv k, lower_bound sv k + count sv k) ∧
  ∀ i x, storage sv !! i = Some x →
    ((equal_range sv k).1 ≤ i < (equal_range sv k).2 ↔
     equivalent sv x k = true).
Proof.
  intros Hswo H1 H2.
  assert (strictly_sorted (comp sv) (storage sv)) as Hs
    by by apply invariants_strictly_sorted.
  destruct (bounds_adjacent sv k Hs) as (Hu & _ & _).
  assert (equal_range sv k = (lower_bound sv k, upper_bound sv k)) as Her
    by done.
  split; [by rewrite Her, Hu|].
  intros i x Hi. rewrite Her. simpl.
  pose proof (lower_bound_lookup sv k i x Hs Hi) as Hlo.
  pose proof (upper_bound_lookup sv k i x Hs Hi) as Hup.
  rewrite equivalent_true. split.
  - intros [Hge Hlt]. split; [|by apply Hup].
    destruct (comp sv x k); [|done].
    assert (i < lower_bound sv k) by by apply Hlo. lia.
  - intros [Hxk Hkx]. split; [|by apply Hup].
    destruct (decide (lower_bound sv k ≤ i)); [done|].
    assert (i < lower_bound sv k) as Hlt%Hlo by lia. congruence.
Qed.

(** X6: on a container that satisfies the invariants, [find(k)] returns
    [end()] when the container holds an element equivalent to [k], and
    the lower bound of [k] when it holds none. *)
Theorem find_end_or_lower_bound sv k :
  StrictWeakOrder (comp sv) → I1 sv → I2 sv →
  (holds sv k → find sv k = end_ sv) ∧
  (¬ holds sv k → find sv k = lower_bound sv k).
Proof.
  intros Hswo H1 H2.
  assert (strictly_sorted (comp sv) (storage sv)) as Hs
    by by apply invariants_strictly_sorted.
  rewrite (find_returns sv Hs). by destruct (decide (holds sv k)).
Qed.

(** X7: on a container that satisfies the invariants, [erase(key)]
    returns 0 and changes nothing when the container holds an element
    equivalent to the key or when no element orders after the key;
    otherwise it returns 1 and removes the first element that orders
    after the key. The invariants hold afterwards. *)
Theorem erase_key_effect sv k :
  StrictWeakOrder (comp sv) → I1 sv → I2 sv →
  (holds sv k → erase sv k = (sv, 0)) ∧
  (¬ holds sv k → lower_bound sv k = end_ sv → erase sv k = (sv, 0)) ∧
  (¬ holds sv k → lower_bound sv k ≠ end_ sv →
     erase sv k =
       (with_storage sv (delete (lower_bound sv k) (storage sv)), 1) ∧
     ∃ x, storage sv !! lower_bound sv k = Some x ∧ comp sv k x = true) ∧
  I1 (erase sv k).1 ∧ I2 (erase sv k).1.
Proof.
  intros Hswo H1 H2.
  assert (strictly_sorted (comp sv) (storage sv)) as Hs
    by by apply invariants_strictly_sorted.
  assert (comp (erase sv k).1 = comp sv) as Hc
    by (unfold erase; by destruct (negb _)).
  assert (I1 (erase sv k).1 ∧ I2 (erase sv k).1) as [? ?].
  { assert (StrictWeakOrder (comp (erase sv k).1)) by by rewrite Hc.
    apply invariants_strictly_sorted; [done|]. rewrite Hc.
    by apply erase_sorted. }
  split_and!; try done.
  - intros Hh. rewrite (erase_returns sv Hs).
    by destruct (decide (holds sv k)).
  - intros Habs He. rewrite (erase_returns sv Hs).
    destruct (decide (holds sv k)); [done|].
    by destruct (decide (lower_bound sv k = end_ sv)).
  - intros Habs He. rewrite (erase_returns sv Hs). split.
    + destruct (decide (holds sv k)); [done|].
      by destruct (decide (lower_bound sv k = end_ sv)).
    + pose proof (lower_bound_le (comp sv) (storage sv) k Hs) as Hle.
      fold (lower_bound sv k) in Hle.
      destruct (lookup_lt_is_Some_2 (storage sv) (lower_bound sv k)) as [x Hx].
      { unfold end_ in He. lia. }
      exists x. split; [done|].
      apply (lower_bound_after_absent sv Hs k); [done|].
      apply (list_elem_of_lookup_2 _ 0). by rewrite lookup_drop, Nat.add_0_r.
Qed.

End LookupLaws.

(** ** Modifiers *)

Section ModifierLaws.
Context {Key : Type}.
Implicit Types (sv other : sorted_vector Key) (k v x : Key) (l : list Key).


Lemma elem_of_delete_lookup l pos (y : Key) :
  y ∈ delete pos l ↔ ∃ j, j ≠ pos ∧ l !! j = Some y.
Proof.
  rewrite list_elem_of_lookup. split.
  - intros [i Hi]. rewrite list_lookup_delete in Hi.
    destruct (decide (i < pos)); eexists; (split; [|done]); lia.
  - intros (j & Hne & Hj). destruct (decide (j < pos)).
    + exists j. by rewrite list_lookup_delete_lt.
    + exists (j - 1). rewrite list_lookup_delete_ge by lia.
      by replace (S (j - 1)) with j by lia.
Qed.

(** X8: on a container that satisfies the invariants, [emplace]
    decides by the value constructed first: when the container holds an
    element equivalent to it, nothing changes and the position of that
    element is returned with [false]; otherwise the element constructed
    second is placed at the lower bound of the first, and the iterator
    returned with [true] is the one taken before the insertion. When
    both constructions give the same value the container is the one
    [insert] leaves, and the invariants hold afterwards whenever the
    second construction is equivalent to the first. [emplace_hint] does
    the same whatever the hint. *)
Theorem emplace_decides_by_first_construction sv tmp again (hint : nat) :
  StrictWeakOrder (comp sv) → I1 sv → I2 sv →
  (holds sv tmp →
     emplace sv tmp again = (sv, (Fresh (lower_bound sv tmp), false)) ∧
     ∃ x, storage sv !! lower_bound sv tmp = Some x ∧
          equivalent sv x tmp = true) ∧
  (¬ holds sv tmp →
     emplace sv tmp again =
       (with_storage sv
          (take (lower_bound sv tmp) (storage sv) ++
           again :: drop (lower_bound sv tmp) (storage sv)),
        (Stale (lower_bound sv tmp), true)) ∧
     storage (emplace sv tmp again).1 !! lower_bound sv tmp = Some again) ∧
  (emplace sv tmp tmp).1 = (insert sv tmp).1 ∧
  (equivalent sv again tmp = true →
     I1 (emplace sv tmp again).1 ∧ I2 (emplace sv tmp again).1) ∧
  emplace_hint sv hint tmp again
    = ((emplace sv tmp again).1, (emplace sv tmp again).2.1).
Proof.
  intros Hswo H1 H2.
  assert (strictly_sorted (comp sv) (storage sv)) as Hs
    by by apply invariants_strictly_sorted.
  split_and!.
  - intros Hh. rewrite emplace_insert, insert_present by done.
    split; [done|]. by apply (holds_at_lower_bound sv Hs).
  - intros Habs. rewrite emplace_insert, insert_absent by done.
    split; [done|]. simpl. apply lookup_vector_insert.
    by apply lower_bound_le.
  - rewrite emplace_insert. unfold insert.
    by destruct (negb _ && _).
  - intros He.
    assert (StrictWeakOrder (comp (emplace sv tmp again).1))
      by by rewrite emplace_comp.
    apply invariants_strictly_sorted; [done|]. rewrite emplace_comp.
    by apply emplace_sorted.
  - done.
Qed.

(** X9: on a container that satisfies the invariants, [erase(pos)] at
    the position of an element [x] takes one off the size, returns the
    same position, now that of the element that followed [x], and keeps
    the invariants; afterwards the container holds no element equivalent
    to [x] and, for every key not equivalent to [x], holds an equivalent
    element exactly when it did before. *)
Theorem erase_pos_removes_one sv pos x :
  StrictWeakOrder (comp sv) → I1 sv → I2 sv →
  storage sv !! pos = Some x →
  (erase_pos sv pos).2 = pos ∧
  S (size (erase_pos sv pos).1) = size sv ∧
  storage (erase_pos sv pos).1 !! pos = storage sv !! S pos ∧
  I1 (erase_pos sv pos).1 ∧ I2 (erase_pos sv pos).1 ∧
  ¬ holds (erase_pos sv pos).1 x ∧
  ∀ k, equivalent sv x k = false →
    (holds (erase_pos sv pos).1 k ↔ holds sv k).
Proof.
  intros Hswo H1 H2 Hx.
  assert (strictly_sorted (comp sv) (storage sv)) as Hs
    by by apply invariants_strictly_sorted.
  pose proof (lookup_lt_Some _ _ _ Hx) as Hlt.
  unfold erase_pos, Std.vector_erase, size. simpl. split_and!.
  - done.
  - rewrite length_delete by eauto. lia.
  - by rewrite list_lookup_delete_ge.
  - apply (invariants_strictly_sorted (with_storage sv _)); [done..|].
    by apply strictly_sorted_delete.
  - apply (invariants_strictly_sorted (with_storage sv _)); [done..|].
    by apply strictly_sorted_delete.
  - intros (y & (j & Hne & Hj)%elem_of_delete_lookup & He).
    rewrite equivalent_with_storage in He.
    by rewrite (H2 j pos y x Hne Hj Hx) in He.
  - intros k Hxk. split.
    + intros (y & Hy%list_elem_of_delete_inv & He). by exists y.
    + intros (y & [j Hj]%list_elem_of_lookup_1 & He). exists y.
      split; [|done]. apply elem_of_delete_lookup. exists j. split; [|done].
      intros ->. congruence.
Qed.

(** X10: on a container that satisfies the invariants, [erase(first,
    last)] of a range within the container takes [last - first] off the
    size, returns [first], keeps the elements before [first] in place,
    moves the elements from [last] on down to [first], and keeps the
    invariants. *)
Theorem erase_range_cuts sv first last :
  StrictWeakOrder (comp sv) → I1 sv → I2 sv →
  first ≤ last ≤ size sv →
  (erase_range sv first last).2 = first ∧
  size (erase_range sv first last).1 + (last - first) = size sv ∧
  (∀ i, i < first →
        storage (erase_range sv first last).1 !! i = storage sv !! i) ∧
  (∀ i, storage (erase_range sv first last).1 !! (first + i)
        = storage sv !! (last + i)) ∧
  I1 (erase_range sv first last).1 ∧ I2 (erase_range sv first last).1.
Proof.
  intros Hswo H1 H2 [Hfl Hle].
  assert (strictly_sorted (comp sv) (storage sv)) as Hs
    by by apply invariants_strictly_sorted.
  unfold erase_range, Std.vector_erase_range, size in *. simpl.
  assert (length (take first (storage sv)) = first) as Hlen
    by (rewrite length_take_le; lia).
  split_and!.
  - done.
  - rewrite length_app, Hlen, length_drop. lia.
  - intros i Hi. rewrite lookup_app_l by lia. by apply lookup_take_lt.
  - intros i. rewrite lookup_app_r by lia. rewrite Hlen, lookup_drop.
    f_equal. lia.
  - apply (invariants_strictly_sorted (with_storage sv _)); [done..|].
    by apply strictly_sorted_cut.
  - apply (invariants_strictly_sorted (with_storage sv _)); [done..|].
    by apply strictly_sorted_cut.
Qed.


(** X12: on an empty container, whatever the comparator, the bounds and
    [find] of every key are [end()], its [count] is 0, [erase] of it
    returns 0 and changes nothing, [validate()] is true, and [insert]
    places the value at position 0 and returns [true]. *)
Theorem empty_container_boundary sv k :
  empty sv = true →
  lower_bound sv k = end_ sv ∧ upper_bound sv k = end_ sv ∧
  find sv k = end_ sv ∧ count sv k = 0 ∧
  erase sv k = (sv, 0) ∧
  validate sv = true ∧
  insert sv k = (with_storage sv [k], (0, true)).
Proof.
  intros He%bool_decide_eq_true. destruct sv as [l c]. simpl in He. subst l.
  by split_and!.
Qed.

(** X13: [swap] exchanges the contents of two containers and a second
    [swap] gives both back; between containers whose comparators are the
    same, both pass [validate()] afterwards when they did before. *)
Theorem swap_exchanges_contents sv other :
  storage (swap sv other).1 = storage other ∧
  storage (swap sv other).2 = storage sv ∧
  swap (swap sv other).1 (swap sv other).2 = (sv, other) ∧
  (comp sv = comp other →
   validate sv = true → validate other = true →
   validate (swap sv other).1 = true ∧ validate (swap sv other).2 = true).
Proof.
  split_and!; try done.
  - by destruct sv, other.
  - apply swap_validate.
Qed.

End ModifierLaws.

(** ** Insertion *)

Section InsertLaws.
Context {Key : Type}.
Implicit Types (sv other : sorted_vector Key) (k v x : Key) (l : list Key).

Lemma insert_holds_other sv v k :
  equivalent sv v k = false →
  holds (insert sv v).1 k ↔ holds sv k.
Proof.
  intros Hvk. unfold holds. setoid_rewrite equivalent_insert. split.
  - intros (y & [Hy| ->]%insert_elem_of & He); [by exists y|congruence].
  - intros (y & Hy & He). exists y. split; [by apply insert_keeps|done].
Qed.

(** X14: on a container that satisfies the invariants, after
    [insert(v)] the count of [v] is 1, and the count of every key not
    equivalent to [v] is what it was before. *)
Theorem insert_then_count sv v :
  StrictWeakOrder (comp sv) → I1 sv → I2 sv →
  count (insert sv v).1 v = 1 ∧
  ∀ k, equivalent sv v k = false →
    count (insert sv v).1 k = count sv k.
Proof.
  intros Hswo H1 H2.
  assert (strictly_sorted (comp sv) (storage sv)) as Hs
    by by apply invariants_strictly_sorted.
  assert (StrictWeakOrder (comp (insert sv v).1)) as Hswo'
    by by rewrite insert_comp.
  pose proof (insert_sorted sv Hs v) as Hs'.
  split.
  - rewrite (count_holds _ Hs').
    destruct (decide (holds (insert sv v).1 v)) as [|Hn]; [done|].
    destruct Hn. by apply insert_holds.
  - intros k Hvk. rewrite (count_holds _ Hs'), (count_holds _ Hs).
    pose proof (insert_holds_other sv v k Hvk) as Hiff.
    destruct (decide (holds (insert sv v).1 k)) as [Hh|Hn],
      (decide (holds sv k)) as [Hh'|Hn']; try done.
    + destruct Hn'. by apply Hiff.
    + destruct Hn. by apply Hiff.
Qed.

(** X15: on a container that satisfies the invariants, a hint between
    [begin()] and [end()] is good for [v] exactly when it is the lower
    bound of [v] and the container holds no element equivalent to [v]. *)
Theorem good_hint_is_lower_bound sv hint v :
  StrictWeakOrder (comp sv) → I1 sv → I2 sv →
  hint ≤ end_ sv →
  good_hint sv hint v = true ↔ hint = lower_bound sv v ∧ ¬ holds sv v.
Proof.
  intros Hswo H1 H2 Hle.
  assert (strictly_sorted (comp sv) (storage sv)) as Hs
    by by apply invariants_strictly_sorted.
  split.
  - intros Hg. by destruct (good_hint_lower_bound sv hint v Hswo Hs Hle Hg).
  - intros [-> Habs]. apply good_hint_true; [done|]. split.
    + intros p Hpos Hp.
      apply (lower_bound_before (comp sv) (storage sv) v); [done|].
      apply elem_of_take. exists (lower_bound sv v - 1). split; [done|].
      fold (lower_bound sv v). lia.
    + intros x Hx. apply (lower_bound_after_absent sv Hs v); [done|].
      apply (list_elem_of_lookup_2 _ 0). by rewrite lookup_drop, Nat.add_0_r.
Qed.

(** X16: on a container that satisfies the invariants, inserting two
    lists of values that are permutations of each other, one value at a
    time, leaves the same keys: the two results have the same size and
    agree position by position up to equivalence, and both keep every
    element the container held before. *)
Theorem insert_all_any_order sv l l' :
  StrictWeakOrder (comp sv) → I1 sv → I2 sv →
  l ≡ₚ l' →
  Forall2 (λ a b, equivalent sv a b = true)
    (storage (insert_all sv l)) (storage (insert_all sv l')) ∧
  size (insert_all sv l) = size (insert_all sv l') ∧
  (∀ x, x ∈ storage sv →
        x ∈ storage (insert_all sv l) ∧ x ∈ storage (insert_all sv l')).
Proof.
  intros Hswo H1 H2 Hperm.
  assert (strictly_sorted (comp sv) (storage sv)) as Hs
    by by apply invariants_strictly_sorted.
  assert (∀ l1 l2, l1 ≡ₚ l2 → ∀ a, a ∈ storage (insert_all sv l1) →
            ∃ b, b ∈ storage (insert_all sv l2) ∧ equivalent sv b a = true)
    as Hrep.
  { intros l1 l2 Hp a [Ha|Ha]%insert_all_elem_of.
    - exists a. split; [by apply insert_all_keeps|by apply equivalent_refl].
    - rewrite Hp in Ha.
      destruct (insert_all_holds sv l2 a Hs Ha) as (b & Hb & He).
      exists b. split; [done|].
      unfold equivalent in *. by rewrite insert_all_comp in He. }
  assert (Forall2 (λ a b, equivalent sv a b = true)
            (storage (insert_all sv l)) (storage (insert_all sv l')))
    as Hkeys.
  { apply strictly_sorted_same_keys; [done|by apply insert_all_sorted..| |].
    - by apply Hrep.
    - by apply Hrep. }
  split_and!; [done|by apply Forall2_length in Hkeys|].
  intros x Hx. split; by apply insert_all_keeps.
Qed.

Context `{!StdSort Key}.

(** X17: on a container that satisfies the invariants, the range
    insert keeps the invariants, keeps every element the container held
    and adds nothing but values of the range. With multi-pass iterators,
    or into an empty container, it leaves an element equivalent to each
    value of the range; with single-pass iterators into a container
    that is not empty it inserts the first value of the range and no
    other. *)
Theorem insert_range_adds_keys sv category l :
  StrictWeakOrder (comp sv) → I1 sv → I2 sv →
  I1 (insert_range sv category l) ∧ I2 (insert_range sv category l) ∧
  (∀ x, x ∈ storage sv → x ∈ storage (insert_range sv category l)) ∧
  (∀ x, x ∈ storage (insert_range sv category l) →
        x ∈ storage sv ∨ x ∈ l) ∧
  (category = MultiPass ∨ empty sv = true →
     ∀ x, x ∈ l → holds (insert_range sv category l) x) ∧
  (category = SinglePass → empty sv = false →
     insert_range sv category l =
       match l with
       | [] => sv
       | x :: _ => (insert sv x).1
       end).
Proof.
  intros Hswo H1 H2.
  assert (strictly_sorted (comp sv) (storage sv)) as Hs
    by by apply invariants_strictly_sorted.
  assert (comp (insert_range sv category l) = comp sv) as Hc.
  { unfold insert_range. destruct (empty sv); [done|apply insert_all_comp]. }
  assert (I1 (insert_range sv category l) ∧ I2 (insert_range sv category l))
    as [? ?].
  { assert (StrictWeakOrder (comp (insert_range sv category l)))
      by by rewrite Hc.
    apply invariants_strictly_sorted; [done|]. rewrite Hc.
    by apply insert_range_sorted. }
  assert (∀ x, x ∈ after_distance category l → x ∈ l) as Hsub.
  { destruct category; simpl; [|done].
    intros x. apply elem_of_take_elem_of. }
  split_and!; try done.
  - unfold insert_range. destruct (empty sv) eqn:He.
    + apply empty_storage in He. rewrite He. by intros x ?%elem_of_nil.
    + intros x. apply insert_all_keeps.
  - unfold insert_range. destruct (empty sv) eqn:He.
    + intros x Hx. apply (sort_unique_elem_of (with_storage sv _)) in Hx.
      simpl in Hx. apply elem_of_app in Hx as [?|?]; auto.
    + intros x [?|?%Hsub]%insert_all_elem_of; auto.
  - intros Hcase x Hx. unfold insert_range. destruct (empty sv) eqn:He.
    + apply (sort_unique_holds (with_storage sv _)); [done..|].
      simpl. apply elem_of_app. by left.
    + destruct Hcase as [->|?]; [|done]. by apply insert_all_holds.
  - intros -> He. unfold insert_range. rewrite He. by destruct l.
Qed.

Lemma unique_from_strictly_sorted sv `{!StrictWeakOrder (comp sv)} kept l :
  Forall (λ y, comp sv kept y = true) l →
  strictly_sorted (comp sv) l →
  Std.unique_from (equivalent sv) kept l = l.
Proof.
  revert kept. induction l as [|y t IH]; intros kept Hk Hs; simpl; [done|].
  apply Forall_cons in Hk as [Hky Hk].
  apply StronglySorted_cons in Hs as [Hy Hs].
  assert (equivalent sv kept y = false) as ->
    by (apply equivalent_false; by left).
  f_equal. by apply IH.
Qed.

Lemma unique_strictly_sorted sv `{!StrictWeakOrder (comp sv)} l :
  strictly_sorted (comp sv) l → Std.unique (equivalent sv) l = l.
Proof.
  destruct l as [|x t]; [done|]. intros [Hx Hs]%StronglySorted_cons.
  simpl. f_equal. by apply unique_from_strictly_sorted.
Qed.

Lemma std_sort_strictly_sorted (c : Key → Key → bool) l :
  StrictWeakOrder c → strictly_sorted c l → std_sort c l = l.
Proof.
  intros Hswo Hs.
  apply (StronglySorted_unique_strong (λ a b, c b a = false)).
  - intros x1 x2 Hx1 [j Hj]%list_elem_of_lookup_1 H12 H21.
    rewrite std_sort_perm in Hx1 by done.
    apply list_elem_of_lookup_1 in Hx1 as [i Hi].
    rewrite strictly_sorted_lookup in Hs.
    destruct (decide (i = j)) as [->|Hne]; [congruence|].
    destruct (decide (i < j)).
    + rewrite (Hs i j x1 x2) in H21; [done|lia|done..].
    + rewrite (Hs j i x2 x1) in H12; [done|lia|done..].
  - apply Sorted_StronglySorted; [apply _|].
    by apply is_sorted_Sorted, std_sort_sorted.
  - apply Sorted_StronglySorted; [apply _|].
    apply StronglySorted_Sorted in Hs. revert Hs. apply Sorted_weaken.
    intros a b. by apply swo_asym.
  - by apply std_sort_perm.
Qed.

(** X18: normalization leaves a container that satisfies the
    invariants as it is: building a container from its contents under
    its comparator, with the range or the list constructor, reproduces
    the container, whatever conforming sort runs underneath. *)
Theorem normalize_valid_is_identity sv :
  StrictWeakOrder (comp sv) → I1 sv → I2 sv →
  from_range (storage sv) (comp sv) = sv ∧
  from_ilist (storage sv) (comp sv) = sv.
Proof.
  intros Hswo H1 H2.
  assert (strictly_sorted (comp sv) (storage sv)) as Hs
    by by apply invariants_strictly_sorted.
  assert (sort_unique sv = sv) as Hid.
  { apply sorted_vector_eq; [|done]. simpl.
    rewrite std_sort_strictly_sorted by done.
    by apply unique_strictly_sorted. }
  unfold from_range, from_ilist. by destruct sv.
Qed.

(** X19: every sequence of calls on one container that return (insert,
    range insert with iterators of either category, list insert,
    emplace and emplace_hint with a second construction equivalent to
    the first, erase by position, by range and by key, clear), each
    given positions within the container, keeps [validate()] true after
    every call when it was true at the start. *)
Theorem calls_keep_validate sv (cs : list call) :
  StrictWeakOrder (comp sv) →
  validate sv = true →
  calls_ok sv cs →
  ∀ n, validate (foldl run_call sv (take n cs)) = true.
Proof. apply run_calls_validate. Qed.

End InsertLaws.

(** ** The laws at concrete containers *)

Section LawWitnesses.

Lemma validate_decides_invariants_witness :
  (StrictWeakOrder (comp one_three_five)) ∧
  (validate one_three_five = true ↔ I1 one_three_five ∧ I2 one_three_five).
Proof.
  split; [exact Z_ltb_swo|].
  exact (validate_decides_invariants one_three_five Z_ltb_swo).
Defined.

Lemma lower_bound_first_not_before_witness :
  (StrictWeakOrder (comp one_three_five) ∧
   I1 one_three_five ∧
   I2 one_three_five) ∧
  (lower_bound one_three_five 4%Z ≤ size one_three_five ∧
  ∀ i x, storage one_three_five !! i = Some x →
    (i < lower_bound one_three_five 4%Z ↔ comp one_three_five x 4%Z = true)).
Proof.
  destruct one_three_five_invariants as [H1 H2].
  split; [split; [exact Z_ltb_swo|split; [exact H1|exact H2]]|].
  exact (lower_bound_first_not_before one_three_five 4%Z Z_ltb_swo H1 H2).
Defined.

Lemma upper_bound_first_after_witness :
  (StrictWeakOrder (comp one_three_five) ∧
   I1 one_three_five ∧
   I2 one_three_five) ∧
  (upper_bound one_three_five 4%Z ≤ size one_three_five ∧
  lower_bound one_three_five 4%Z ≤ upper_bound one_three_five 4%Z ≤ S (lower_bound one_three_five 4%Z) ∧
  ∀ i x, storage one_three_five !! i = Some x →
    (upper_bound one_three_five 4%Z ≤ i ↔ comp one_three_five 4%Z x = true)).
Proof.
  destruct one_three_five_invariants as [H1 H2].
  split; [split; [exact Z_ltb_swo|split; [exact H1|exact H2]]|].
  exact (upper_bound_first_after one_three_five 4%Z Z_ltb_swo H1 H2).
Defined.

Lemma count_one_or_zero_witness :
  (StrictWeakOrder (comp one_three_five) ∧
   I1 one_three_five ∧
   I2 one_three_five) ∧
  ((holds one_three_five 4%Z → count one_three_five 4%Z = 1) ∧ (¬ holds one_three_five 4%Z → count one_three_five 4%Z = 0)).
Proof.
  destruct one_three_five_invariants as [H1 H2].
  split; [split; [exact Z_ltb_swo|split; [exact H1|exact H2]]|].
  exact (count_one_or_zero one_three_five 4%Z Z_ltb_swo H1 H2).
Defined.

Lemma equal_range_delimits_match_witness :
  (StrictWeakOrder (comp one_three_five) ∧
   I1 one_three_five ∧
   I2 one_three_five) ∧
  (equal_range one_three_five 4%Z = (lower_bound one_three_five 4%Z, lower_bound one_three_five 4%Z + count one_three_five 4%Z) ∧
  ∀ i x, storage one_three_five !! i = Some x →
    ((equal_range one_three_five 4%Z).1 ≤ i < (equal_range one_three_five 4%Z).2 ↔
     equivalent one_three_five x 4%Z = true)).
Proof.
  destruct one_three_five_invariants as [H1 H2].
  split; [split; [exact Z_ltb_swo|split; [exact H1|exact H2]]|].
  exact (equal_range_delimits_match one_three_five 4%Z Z_ltb_swo H1 H2).
Defined.

Lemma find_end_or_lower_bound_witness :
  (StrictWeakOrder (comp one_three_five) ∧
   I1 one_three_five ∧
   I2 one_three_five) ∧
  ((holds one_three_five 4%Z → find one_three_five 4%Z = end_ one_three_five) ∧
  (¬ holds one_three_five 4%Z → find one_three_five 4%Z = lower_bound one_three_five 4%Z)).
Proof.
  destruct one_three_five_invariants as [H1 H2].
  split; [split; [exact Z_ltb_swo|split; [exact H1|exact H2]]|].
  exact (find_end_or_lower_bound one_three_five 4%Z Z_ltb_swo H1 H2).
Defined.

Lemma erase_key_effect_witness :
  (StrictWeakOrder (comp one_three_five) ∧
   I1 one_three_five ∧
   I2 one_three_five) ∧
  ((holds one_three_five 4%Z → erase one_three_five 4%Z = (one_three_five, 0)) ∧
  (¬ holds one_three_five 4%Z → lower_bound one_three_five 4%Z = end_ one_three_five → erase one_three_five 4%Z = (one_three_five, 0)) ∧
  (¬ holds one_three_five 4%Z → lower_bound one_three_five 4%Z ≠ end_ one_three_five →
     erase one_three_five 4%Z =
       (with_storage one_three_five (delete (lower_bound one_three_five 4%Z) (storage one_three_five)), 1) ∧
     ∃ x, storage one_three_five !! lower_bound one_three_five 4%Z = Some x ∧ comp one_three_five 4%Z x = true) ∧
  I1 (erase one_three_five 4%Z).1 ∧ I2 (erase one_three_five 4%Z).1).
Proof.
  destruct one_three_five_invariants as [H1 H2].
  split; [split; [exact Z_ltb_swo|split; [exact H1|exact H2]]|].
  exact (erase_key_effect one_three_five 4%Z Z_ltb_swo H1 H2).
Defined.

Lemma erase_pos_removes_one_witness :
  (StrictWeakOrder (comp one_three_five) ∧
   I1 one_three_five ∧
   I2 one_three_five ∧
   storage one_three_five !! 1 = Some 3%Z) ∧
  ((erase_pos one_three_five 1).2 = 1 ∧
  S (size (erase_pos one_three_five 1).1) = size one_three_five ∧
  storage (erase_pos one_three_five 1).1 !! 1 = storage one_three_five !! S 1 ∧
  I1 (erase_pos one_three_five 1).1 ∧ I2 (erase_pos one_three_five 1).1 ∧
  ¬ holds (erase_pos one_three_five 1).1 3%Z ∧
  ∀ k, equivalent one_three_five 3%Z k = false →
    (holds (erase_pos one_three_five 1).1 k ↔ holds one_three_five k)).
Proof.
  destruct one_three_five_invariants as [H1 H2].
  split; [split; [exact Z_ltb_swo|split; [exact H1|split; [exact H2|exact eq_refl]]]|].
  exact (erase_pos_removes_one one_three_five 1 3%Z Z_ltb_swo H1 H2 eq_refl).
Defined.

Lemma erase_range_cuts_witness :
  (StrictWeakOrder (comp one_three_five) ∧
   I1 one_three_five ∧
   I2 one_three_five ∧
   1 ≤ 2 ≤ size one_three_five) ∧
  ((erase_range one_three_five 1 2).2 = 1 ∧
  size (erase_range one_three_five 1 2).1 + (2 - 1) = size one_three_five ∧
  (∀ i, i < 1 →
        storage (erase_range one_three_five 1 2).1 !! i = storage one_three_five !! i) ∧
  (∀ i, storage (erase_range one_three_five 1 2).1 !! (1 + i)
        = storage one_three_five !! (2 + i)) ∧
  I1 (erase_range one_three_five 1 2).1 ∧ I2 (erase_range one_three_five 1 2).1).
Proof.
  destruct one_three_five_invariants as [H1 H2].
  assert (1 ≤ 2 ≤ size one_three_five) as Hr by (vm_compute; lia).
  split; [split; [exact Z_ltb_swo|split; [exact H1|split; [exact H2|exact Hr]]]|].
  exact (erase_range_cuts one_three_five 1 2 Z_ltb_swo H1 H2 Hr).
Defined.

Lemma empty_container_boundary_witness :
  (empty (new Z.ltb) = true) ∧
  (lower_bound (new Z.ltb) 7%Z = end_ (new Z.ltb) ∧ upper_bound (new Z.ltb) 7%Z = end_ (new Z.ltb) ∧
  find (new Z.ltb) 7%Z = end_ (new Z.ltb) ∧ count (new Z.ltb) 7%Z = 0 ∧
  erase (new Z.ltb) 7%Z = ((new Z.ltb), 0) ∧
  validate (new Z.ltb) = true ∧
  insert (new Z.ltb) 7%Z = (with_storage (new Z.ltb) [7%Z], (0, true))).
Proof.
  split; [exact eq_refl|].
  exact (empty_container_boundary (new Z.ltb) 7%Z eq_refl).
Defined.

Lemma insert_then_count_witness :
  (StrictWeakOrder (comp one_three_five) ∧
   I1 one_three_five ∧
   I2 one_three_five) ∧
  (count (insert one_three_five 4%Z).1 4%Z = 1 ∧
  ∀ k, equivalent one_three_five 4%Z k = false →
    count (insert one_three_five 4%Z).1 k = count one_three_five k).
Proof.
  destruct one_three_five_invariants as [H1 H2].
  split; [split; [exact Z_ltb_swo|split; [exact H1|exact H2]]|].
  exact (insert_then_count one_three_five 4%Z Z_ltb_swo H1 H2).
Defined.

Lemma good_hint_is_lower_bound_witness :
  (StrictWeakOrder (comp one_three_five) ∧
   I1 one_three_five ∧
   I2 one_three_five ∧
   2 ≤ end_ one_three_five) ∧
  (good_hint one_three_five 2 4%Z = true ↔ 2 = lower_bound one_three_five 4%Z ∧ ¬ holds one_three_five 4%Z).
Proof.
  destruct one_three_five_invariants as [H1 H2].
  assert (2 ≤ end_ one_three_five) as Hle by (vm_compute; lia).
  split; [split; [exact Z_ltb_swo|split; [exact H1|split; [exact H2|exact Hle]]]|].
  exact (good_hint_is_lower_bound one_three_five 2 4%Z Z_ltb_swo H1 H2 Hle).
Defined.

Lemma insert_all_any_order_witness :
  (StrictWeakOrder (comp one_three_five) ∧
   I1 one_three_five ∧
   I2 one_three_five ∧
   [4; 2]%Z ≡ₚ [2; 4]%Z) ∧
  (Forall2 (λ a b, equivalent one_three_five a b = true)
    (storage (insert_all one_three_five [4; 2]%Z)) (storage (insert_all one_three_five [2; 4]%Z)) ∧
  size (insert_all one_three_five [4; 2]%Z) = size (insert_all one_three_five [2; 4]%Z) ∧
  (∀ x, x ∈ storage one_three_five →
        x ∈ storage (insert_all one_three_five [4; 2]%Z) ∧ x ∈ storage (insert_all one_three_five [2; 4]%Z))).
Proof.
  destruct one_three_five_invariants as [H1 H2].
  assert ([4; 2]%Z ≡ₚ [2; 4]%Z) as Hperm by (apply perm_swap).
  split; [split; [exact Z_ltb_swo|split; [exact H1|split; [exact H2|exact Hperm]]]|].
  exact (insert_all_any_order one_three_five [4; 2]%Z [2; 4]%Z Z_ltb_swo H1 H2 Hperm).
Defined.

Lemma emplace_decides_by_first_construction_witness :
  (StrictWeakOrder (comp one_three_five) ∧
   I1 one_three_five ∧
   I2 one_three_five) ∧
  ((holds one_three_five 4%Z →
     emplace one_three_five 4%Z 4%Z = (one_three_five, (Fresh (lower_bound one_three_five 4%Z), false)) ∧
     ∃ x, storage one_three_five !! lower_bound one_three_five 4%Z = Some x ∧
          equivalent one_three_five x 4%Z = true) ∧
  (¬ holds one_three_five 4%Z →
     emplace one_three_five 4%Z 4%Z =
       (with_storage one_three_five
          (take (lower_bound one_three_five 4%Z) (storage one_three_five) ++
           4%Z :: drop (lower_bound one_three_five 4%Z) (storage one_three_five)),
        (Stale (lower_bound one_three_five 4%Z), true)) ∧
     storage (emplace one_three_five 4%Z 4%Z).1 !! lower_bound one_three_five 4%Z = Some 4%Z) ∧
  (emplace one_three_five 4%Z 4%Z).1 = (insert one_three_five 4%Z).1 ∧
  (equivalent one_three_five 4%Z 4%Z = true →
     I1 (emplace one_three_five 4%Z 4%Z).1 ∧ I2 (emplace one_three_five 4%Z 4%Z).1) ∧
  emplace_hint one_three_five 0 4%Z 4%Z
    = ((emplace one_three_five 4%Z 4%Z).1, (emplace one_three_five 4%Z 4%Z).2.1)).
Proof.
  destruct one_three_five_invariants as [H1 H2].
  split; [split; [exact Z_ltb_swo|split; [exact H1|exact H2]]|].
  exact (emplace_decides_by_first_construction one_three_five 4%Z 4%Z 0 Z_ltb_swo H1 H2).
Defined.


Lemma insert_range_adds_keys_witness :
  (StrictWeakOrder (comp one_three_five) ∧
   I1 one_three_five ∧
   I2 one_three_five) ∧
  (I1 (@insert_range Z (reference_StdSort Z) one_three_five SinglePass [4; 2; 4]%Z) ∧ I2 (@insert_range Z (reference_StdSort Z) one_three_five SinglePass [4; 2; 4]%Z) ∧
  (∀ x, x ∈ storage one_three_five → x ∈ storage (@insert_range Z (reference_StdSort Z) one_three_five SinglePass [4; 2; 4]%Z)) ∧
  (∀ x, x ∈ storage (@insert_range Z (reference_StdSort Z) one_three_five SinglePass [4; 2; 4]%Z) →
        x ∈ storage one_three_five ∨ x ∈ [4; 2; 4]%Z) ∧
  (SinglePass = MultiPass ∨ empty one_three_five = true →
     ∀ x, x ∈ [4; 2; 4]%Z → holds (@insert_range Z (reference_StdSort Z) one_three_five SinglePass [4; 2; 4]%Z) x) ∧
  (SinglePass = SinglePass → empty one_three_five = false →
     @insert_range Z (reference_StdSort Z) one_three_five SinglePass [4; 2; 4]%Z =
       match [4; 2; 4]%Z with
       | [] => one_three_five
       | x :: _ => (insert one_three_five x).1
       end)).
Proof.
  destruct one_three_five_invariants as [H1 H2].
  split; [split; [exact Z_ltb_swo|split; [exact H1|exact H2]]|].
  exact (@insert_range_adds_keys Z (reference_StdSort Z) one_three_five SinglePass [4; 2; 4]%Z Z_ltb_swo H1 H2).
Defined.


Lemma normalize_valid_is_identity_witness :
  (StrictWeakOrder (comp one_three_five) ∧
   I1 one_three_five ∧
   I2 one_three_five) ∧
  (@from_range Z (reference_StdSort Z) (storage one_three_five) (comp one_three_five) = one_three_five ∧
  @from_ilist Z (reference_StdSort Z) (storage one_three_five) (comp one_three_five) = one_three_five).
Proof.
  destruct one_three_five_invariants as [H1 H2].
  split; [split; [exact Z_ltb_swo|split; [exact H1|exact H2]]|].
  exact (@normalize_valid_is_identity Z (reference_StdSort Z) one_three_five Z_ltb_swo H1 H2).
Defined.


Lemma calls_keep_validate_witness :
  (StrictWeakOrder (comp one_three_five) ∧
   validate one_three_five = true ∧
   @calls_ok Z (reference_StdSort Z) one_three_five sample_calls) ∧
  (∀ n, validate (foldl (@run_call Z (reference_StdSort Z)) one_three_five (take n sample_calls)) = true).
Proof.
  assert (@calls_ok Z (reference_StdSort Z) one_three_five sample_calls) as Hok by (vm_compute; repeat split; lia).
  split; [split; [exact Z_ltb_swo|split; [exact eq_refl|exact Hok]]|].
  exact (@calls_keep_validate Z (reference_StdSort Z) one_three_five sample_calls Z_ltb_swo eq_refl Hok).
Defined.

End LawWitnesses.

End SortedVectorLaws.

(** * Further properties of the semaphore *)

Module SemaphoreLaws.
Import Semaphore SemaphoreFacts.
Open Scope Z_scope.

Lemma wrap_wrap_succ z : wrap (wrap z + 1) = wrap (z + 1).
Proof. unfold wrap. by rewrite Z.add_mod_idemp_l. Qed.

Lemma iter_post (s : semaphore) (n : nat) :
  in_range s → Z.of_nat n ≤ waiters s →
  Nat.iter n (λ t, (post t).1) s
  = Sem (wrap (count s + Z.of_nat n)) (waiters s - Z.of_nat n).
Proof.
  intros [Hc Hw]. induction n as [|n IH]; intros Hn.
  - simpl. rewrite Z.add_0_r, Z.sub_0_r, wrap_in_range by done.
    by destruct s.
  - rewrite Nat.iter_succ, IH by lia. unfold post. simpl.
    rewrite (proj2 (Z.gtb_gt _ _)) by lia. simpl.
    rewrite wrap_wrap_succ, (wrap_in_range (_ - 1)) by lia.
    f_equal; [f_equal|]; lia.
Qed.

(** X20: [post()] returns without suspending; below the largest count
    it adds exactly one to the count and takes one waiter off the
    waiters when there is one; a [try_wait()] right after it returns
    [true] and puts the count back. *)
Theorem post_then_try_wait (s : semaphore) :
  in_range s → count s < 2 ^ 32 - 1 →
  (post s).2 = Returns () ∧
  count (post s).1 = count s + 1 ∧
  (0 < waiters s → waiters (post s).1 = waiters s - 1) ∧
  (waiters s = 0 → waiters (post s).1 = 0) ∧
  try_wait (post s).1 = (Sem (count s) (waiters (post s).1), Returns true).
Proof.
  intros [Hc Hw] Hmax. unfold post.
  destruct (Z.gtb_spec (waiters s) 0) as [Hpos|Hz]; simpl;
    rewrite !(wrap_in_range (count s + 1)) by lia.
  - rewrite (wrap_in_range (_ - 1)) by lia. split_and!; try done; try lia.
    unfold try_wait. simpl. rewrite (proj2 (Z.gtb_gt _ _)) by lia.
    rewrite wrap_in_range by lia. do 2 f_equal. lia.
  - split_and!; try done; try lia.
    unfold try_wait. simpl. rewrite (proj2 (Z.gtb_gt _ _)) by lia.
    rewrite wrap_in_range by lia. do 2 f_equal. lia.
Qed.

(** X21: [post_all()] leaves the semaphore as one [post()] for each
    waiter does: no waiters, and the count raised by their number
    (wrapping around like the posts); without waiters it changes
    nothing. *)
Theorem post_all_as_posts (s : semaphore) :
  in_range s →
  (post_all s).1 = Nat.iter (Z.to_nat (waiters s)) (λ t, (post t).1) s ∧
  waiters (post_all s).1 = 0 ∧
  (waiters s = 0 → (post_all s).1 = s).
Proof.
  intros Hr. pose proof Hr as [Hc Hw]. split_and!.
  - rewrite iter_post by (done || lia). unfold post_all. simpl.
    rewrite Z2Nat.id by lia. f_equal. lia.
  - done.
  - intros Hz. unfold post_all. simpl.
    rewrite Hz, Z.add_0_r, wrap_in_range by done.
    destruct s. simpl in *. by subst.
Qed.

(** X22: [wait()] with a positive count takes one off the count and
    returns, leaving the semaphore as [try_wait()] does; with a count of
    zero it adds the caller to the waiters and suspends it, and a
    [post()] followed by the resumption of the waiter leaves the
    semaphore as it was before the [wait()]. *)
Theorem wait_takes_or_suspends (s : semaphore) :
  in_range s → waiters s < 2 ^ 32 - 1 →
  (0 < count s →
     wait s = (Sem (count s - 1) (waiters s), Returns ()) ∧
     (wait s).1 = (try_wait s).1) ∧
  (count s = 0 →
     wait s = (Sem 0 (waiters s + 1), Suspends) ∧
     resume (post (wait s).1).1 = (s, Returns ())).
Proof.
  intros [Hc Hw] Hmax. unfold wait, try_wait. split.
  - intros Hpos. rewrite (proj2 (Z.gtb_gt _ _)) by lia.
    by rewrite wrap_in_range by lia.
  - intros Hz. destruct s as [c w]. simpl in *. subst c. simpl.
    rewrite (wrap_in_range (w + 1)) by lia. split; [done|].
    unfold post. simpl. rewrite (proj2 (Z.gtb_gt _ _)) by lia.
    unfold resume. simpl.
    rewrite (wrap_in_range (w + 1 - 1)) by lia.
    do 2 f_equal. lia.
Qed.

(** At concrete semaphores. *)

Lemma post_then_try_wait_witness :
  (in_range (Sem 2 1) ∧
   count (Sem 2 1) < 2 ^ 32 - 1) ∧
  ((post (Sem 2 1)).2 = Returns () ∧
  count (post (Sem 2 1)).1 = count (Sem 2 1) + 1 ∧
  (0 < waiters (Sem 2 1) → waiters (post (Sem 2 1)).1 = waiters (Sem 2 1) - 1) ∧
  (waiters (Sem 2 1) = 0 → waiters (post (Sem 2 1)).1 = 0) ∧
  try_wait (post (Sem 2 1)).1 = (Sem (count (Sem 2 1)) (waiters (post (Sem 2 1)).1), Returns true)).
Proof.
  assert (in_range (Sem 2 1)) as Hr by (unfold in_range; simpl; lia).
  assert (count (Sem 2 1) < 2 ^ 32 - 1) as Hmax by (simpl; lia).
  split; [split; [exact Hr|exact Hmax]|].
  exact (post_then_try_wait (Sem 2 1) Hr Hmax).
Defined.

Lemma post_all_as_posts_witness :
  (in_range (Sem 2 3)) ∧
  ((post_all (Sem 2 3)).1 = Nat.iter (Z.to_nat (waiters (Sem 2 3))) (λ t, (post t).1) (Sem 2 3) ∧
  waiters (post_all (Sem 2 3)).1 = 0 ∧
  (waiters (Sem 2 3) = 0 → (post_all (Sem 2 3)).1 = (Sem 2 3))).
Proof.
  assert (in_range (Sem 2 3)) as Hr by (unfold in_range; simpl; lia).
  split; [exact Hr|].
  exact (post_all_as_posts (Sem 2 3) Hr).
Defined.

Lemma wait_takes_or_suspends_witness :
  (in_range (Sem 0 1) ∧
   waiters (Sem 0 1) < 2 ^ 32 - 1) ∧
  ((0 < count (Sem 0 1) →
     wait (Sem 0 1) = (Sem (count (Sem 0 1) - 1) (waiters (Sem 0 1)), Returns ()) ∧
     (wait (Sem 0 1)).1 = (try_wait (Sem 0 1)).1) ∧
  (count (Sem 0 1) = 0 →
     wait (Sem 0 1) = (Sem 0 (waiters (Sem 0 1) + 1), Suspends) ∧
     resume (post (wait (Sem 0 1)).1).1 = ((Sem 0 1), Returns ()))).
Proof.
  assert (in_range (Sem 0 1)) as Hr by (unfold in_range; simpl; lia).
  assert (waiters (Sem 0 1) < 2 ^ 32 - 1) as Hmax by (simpl; lia).
  split; [split; [exact Hr|exact Hmax]|].
  exact (wait_takes_or_suspends (Sem 0 1) Hr Hmax).
Defined.

End SemaphoreLaws.

(** * Further properties of the raw array *)

Module RawArrayLaws.
Import RawArray Samples.

Lemma raw_array_eq {T : Type} {N : nat} (a b : raw_array T N) :
  data a = data b → a = b.
Proof.
  destruct a as [da Ha], b as [db Hb]. simpl. intros ->.
  f_equal. apply proof_irrel.
Qed.

(** X23: writes through [operator[]] at two different indices below
    [N] can be made in either order; a second write at an index
    replaces the first; and writing back the value a cell holds leaves
    the array as it is. *)
Theorem subscript_stores_compose {T : Type} {N : nat} (a : raw_array T N)
    (i j : nat) (v w : T) :
  i < N → j < N →
  (i ≠ j →
     store (subscript i) v (store (subscript j) w a)
     = store (subscript j) w (store (subscript i) v a)) ∧
  store (subscript i) v (store (subscript i) w a) = store (subscript i) v a ∧
  (load (subscript i) a = Some v → store (subscript i) v a = a).
Proof.
  intros Hi Hj. split_and!.
  - intros Hne. apply raw_array_eq. simpl. by apply list_insert_insert_ne.
  - apply raw_array_eq. simpl. apply list_insert_insert_eq.
  - simpl. intros Hv. apply raw_array_eq. simpl. by apply list_insert_id.
Qed.

(** At a concrete array. *)

Lemma subscript_stores_compose_witness :
  (0 < 3 ∧
   2 < 3) ∧
  ((0 ≠ 2 →
     store (subscript 0) 7%Z (store (subscript 2) 9%Z three_cells)
     = store (subscript 2) 9%Z (store (subscript 0) 7%Z three_cells)) ∧
  store (subscript 0) 7%Z (store (subscript 0) 9%Z three_cells)
  = store (subscript 0) 7%Z three_cells ∧
  (load (subscript 0) three_cells = Some 7%Z →
   store (subscript 0) 7%Z three_cells = three_cells)).
Proof.
  assert (0 < 3) as Hi by (lia).
  assert (2 < 3) as Hj by (lia).
  split; [split; [exact Hi|exact Hj]|].
  exact (subscript_stores_compose three_cells 0 2 7%Z 9%Z Hi Hj).
Defined.

End RawArrayLaws.
